(** * Lumen Mod Manager: the update manager (src/services/update-manager.js)

    A shallow embedding of [UpdateManager] and of the JavaScript runtime
    operations it relies on, followed by the properties of the update
    orchestration engine.

    - [JS]: strings as sequences of UTF-16 code units, IEEE-754 binary64
      numbers (the Standard Library's [spec_float]), [parseInt],
      [String(number)], [Math.round], the relational operators and
      [String.prototype.split] on the pattern [/[.-]/].
    - [compareVersions]: the version comparator.
    - the file system, the event emitter and the external collaborators
      (catalog, HTTP, clock) as an explicit world threaded through a state
      and exception monad.
    - the callers in the main process (src/main.js): the handlers of the
      registry and of the update check, and the choice the catalog wrapper
      makes among the versions of a project.

    Scope of the model.  An [await] is a sequential step: the manager is
    the only writer of the world while one of its methods runs.  Event
    listeners are assumed not to throw.  A response stream that breaks
    after the headers arrived has no handler in the source (the promise of
    [downloadWithProgress] would never settle); such runs are not
    represented, every modelled call settles.  Object keys are file names;
    the special property name [__proto__] is not treated apart. *)

From Stdlib Require Import ZArith List Ascii String Bool Lia.
From Stdlib Require Import Floats.SpecFloat.
From stdpp Require Import base option list sorting gmap.

Local Open Scope Z_scope.

(* ===================================================================== *)
(** * The JavaScript runtime fragment used by the update manager *)
(* ===================================================================== *)

Module JS.

(** A JavaScript string is a sequence of UTF-16 code units. *)
Definition code_unit := N.
Definition jsstring := list N.

(** String literals of the source, written with Rocq's string notation. *)
Definition js (s : string) : jsstring :=
  List.map N_of_ascii (list_ascii_of_string s).

(** A JavaScript Number is an IEEE-754 binary64 value. *)
Definition number := spec_float.
Definition prec : Z := 53.
Definition emax : Z := 1024.

Definition NaN : number := S754_nan.
Definition pos_zero : number := S754_zero false.

(** The Number nearest to an integer (round to nearest, ties to even). *)
Definition of_Z (z : Z) : number := binary_normalize prec emax z 0 false.
Definition of_nat (n : nat) : number := of_Z (Z.of_nat n).

(** The Number nearest to the rational [p / q], for [0 <= p] and [0 < q]. *)
Definition of_ratio (p q : Z) : number :=
  if p =? 0 then pos_zero
  else let '(mz, ez, lz) := SFdiv_core_binary prec emax p 0 q 0 in
       binary_round_aux prec emax false mz ez lz.

Definition isNaN (x : number) : bool :=
  match x with S754_nan => true | _ => false end.

Definition num_eqb (x y : number) : bool :=
  match x, y with
  | S754_zero a, S754_zero b => Bool.eqb a b
  | S754_infinity a, S754_infinity b => Bool.eqb a b
  | S754_nan, S754_nan => true
  | S754_finite a m e, S754_finite b m' e' =>
      Bool.eqb a b && Pos.eqb m m' && Z.eqb e e'
  | _, _ => false
  end.

(** [x < y] and [x > y] on Numbers: false as soon as an operand is NaN. *)
Definition num_lt (x y : number) : bool := SFltb x y.
Definition num_gt (x y : number) : bool := SFltb y x.

(** ** Code units *)

(** WhiteSpace and LineTerminator code points (ECMA-262, StrWhiteSpaceChar). *)
Definition is_white (c : N) : bool :=
  existsb (N.eqb c)
    [9; 10; 11; 12; 13; 32; 160; 5760; 8192; 8193; 8194; 8195; 8196; 8197;
     8198; 8199; 8200; 8201; 8202; 8232; 8233; 8239; 8287; 12288; 65279]%N.

Fixpoint trim_start (s : jsstring) : jsstring :=
  match s with
  | c :: r => if is_white c then trim_start r else s
  | [] => []
  end.

(** The value of a code unit as a digit: 0-9, then a-z and A-Z for 10-35. *)
Definition digit_value (c : N) : option Z :=
  if ((48 <=? c) && (c <=? 57))%N then Some (Z.of_N c - 48)
  else if ((97 <=? c) && (c <=? 122))%N then Some (Z.of_N c - 87)
  else if ((65 <=? c) && (c <=? 90))%N then Some (Z.of_N c - 55)
  else None.

Definition is_radix_digit (R : Z) (c : N) : bool :=
  match digit_value c with Some d => d <? R | None => false end.

Definition is_decimal_digit (c : N) : bool := ((48 <=? c) && (c <=? 57))%N.

(** The longest prefix of radix-[R] digits. *)
Fixpoint digit_prefix (R : Z) (s : jsstring) : jsstring :=
  match s with
  | c :: r => if is_radix_digit R c then c :: digit_prefix R r else []
  | [] => []
  end.

(** The integer written by a sequence of radix-[R] digits. *)
Definition digits_value (R : Z) (ds : jsstring) : Z :=
  fold_left (fun acc c => acc * R + default 0 (digit_value c)) ds 0.

(** ** parseInt(string, radix)

    [radix] is the argument after ToInt32, so [0] stands for an absent
    radix.  The mathematical integer is rounded to the nearest Number. *)
Definition parseInt (input : jsstring) (radix : Z) : number :=
  let S0 := trim_start input in
  let negative := match S0 with c :: _ => N.eqb c 45 | [] => false end in
  let S1 := match S0 with
            | c :: r => if N.eqb c 43 || N.eqb c 45 then r else S0
            | [] => []
            end in
  if negb (radix =? 0) && ((radix <? 2) || (36 <? radix)) then NaN
  else
    let stripPrefix := (radix =? 0) || (radix =? 16) in
    let R0 := if radix =? 0 then 10 else radix in
    let '(R, S2) :=
      match S1 with
      | c0 :: c1 :: r =>
          if stripPrefix && N.eqb c0 48 && (N.eqb c1 120 || N.eqb c1 88)
          then (16, r) else (R0, S1)
      | _ => (R0, S1)
      end in
    match digit_prefix R S2 with
    | [] => NaN
    | ds =>
        let mathInt := digits_value R ds in
        if mathInt =? 0 then S754_zero negative
        else of_Z (if negative then - mathInt else mathInt)
    end.

(** ** Number::toString(x), radix 10 *)

Definition digit_unit (d : Z) : N := Z.to_N (48 + d).

Fixpoint decimal_digits_fuel (fuel : nat) (z : Z) (acc : jsstring) : jsstring :=
  match fuel with
  | O => acc
  | S f =>
      if z <? 10 then digit_unit z :: acc
      else decimal_digits_fuel f (z / 10) (digit_unit (z mod 10) :: acc)
  end.

(** The decimal digits of a natural number, most significant first. *)
Definition decimal_digits (z : Z) : jsstring :=
  decimal_digits_fuel (S (Z.to_nat (Z.log2 z))) z [].

Definition zeros (n : Z) : jsstring := repeat 48%N (Z.to_nat n).

(** The exact value of a positive finite Number as a fraction. *)
Definition exact_ratio (m : positive) (e : Z) : Z * Z :=
  if 0 <=? e then (Zpos m * 2 ^ e, 1) else (Zpos m, 2 ^ (- e)).

(** The [n] with [10^(n-1) <= p/q < 10^n]. *)
Fixpoint below_one_exponent (fuel : nat) (p q : Z) (j : Z) : Z :=
  match fuel with
  | O => 1 - j
  | S f => if q <=? p * 10 ^ j then 1 - j
           else below_one_exponent f p q (j + 1)
  end.

Definition decimal_exponent (p q : Z) : Z :=
  if q <=? p then Z.of_nat (length (decimal_digits (p / q)))
  else below_one_exponent 400 p q 1.

(** [s * 10^(n-k)] as a fraction. *)
Definition scaled (s n k : Z) : Z * Z :=
  if 0 <=? n - k then (s * 10 ^ (n - k), 1) else (s, 10 ^ (k - n)).

(** The candidates [(s, n)] with [k] digits whose value rounds to [x]. *)
Definition candidates (x : number) (p q nx k : Z) : list (Z * Z) :=
  List.filter
    (fun '(s, n) =>
       (10 ^ (k - 1) <=? s) && (s <? 10 ^ k) &&
       (let '(a, b) := scaled s n k in num_eqb (of_ratio a b) x))
    (flat_map
       (fun n =>
          let lo := if 0 <=? k - n then (p * 10 ^ (k - n)) / q
                    else p / (q * 10 ^ (n - k)) in
          [(lo, n); (lo + 1, n)])
       [nx; nx + 1]).

(** Distance of a candidate to [p/q], over the common denominator. *)
Definition distance (p q : Z) (k : Z) (c : Z * Z) : Z * Z :=
  let '(s, n) := c in
  let '(a, b) := scaled s n k in
  (Z.abs (a * q - p * b), b * q).

Definition closer (p q k : Z) (c d : Z * Z) : Z * Z :=
  let '(n1, d1) := distance p q k c in
  let '(n2, d2) := distance p q k d in
  if n1 * d2 <? n2 * d1 then c
  else if n2 * d1 <? n1 * d2 then d
  else if Z.even (fst c) then c else d.

Fixpoint shortest_fuel (fuel : nat) (x : number) (p q nx k : Z) : Z * Z * Z :=
  match fuel with
  | O => (p / q, nx, k)
  | S f =>
      match candidates x p q nx k with
      | c :: cs => let '(s, n) := fold_left (closer p q k) cs c in (s, n, k)
      | [] => shortest_fuel f x p q nx (k + 1)
      end
  end.

(** The shortest digits [s], their count [k] and the exponent [n] such
    that [s * 10^(n-k)] rounds to [x] (ECMA-262 Number::toString, step 5). *)
Definition shortest (x : number) (m : positive) (e : Z) : Z * Z * Z :=
  let '(p, q) := exact_ratio m e in
  shortest_fuel 17 x p q (decimal_exponent p q) 1.

Definition format_positive (x : number) (m : positive) (e : Z) : jsstring :=
  let '(s, n, k) := shortest x m e in
  let ds := decimal_digits s in
  if (k <=? n) && (n <=? 21) then ds ++ zeros (n - k)
  else if (0 <? n) && (n <=? 21) then
    take (Z.to_nat n) ds ++ [46%N] ++ drop (Z.to_nat n) ds
  else if (-6 <? n) && (n <=? 0) then
    [48; 46]%N ++ zeros (- n) ++ ds
  else
    let ex := n - 1 in
    let sign := if ex <? 0 then 45%N else 43%N in
    let mant := match ds with
                | d :: (_ :: _) as rest => d :: 46%N :: rest
                | _ => ds
                end in
    mant ++ [101%N; sign] ++ decimal_digits (Z.abs ex).

Definition number_to_string (x : number) : jsstring :=
  match x with
  | S754_nan => js "NaN"
  | S754_zero _ => js "0"
  | S754_infinity false => js "Infinity"
  | S754_infinity true => js "-Infinity"
  | S754_finite false m e => format_positive x m e
  | S754_finite true m e =>
      45%N :: format_positive (S754_finite false m e) m e
  end.

(** ** Math.round(x): the nearest integer, ties towards +Infinity *)
Definition math_round (x : number) : number :=
  match x with
  | S754_finite s m e =>
      if 0 <=? e then x
      else
        let den := 2 ^ (- e) in
        let num := if s then Zneg m else Zpos m in
        let r := (2 * num + den) / (2 * den) in
        if r =? 0 then S754_zero s else of_Z r
  | _ => x
  end.

(** ** Relational comparison of strings: code unit by code unit *)
Fixpoint str_lt (a b : jsstring) : bool :=
  match a, b with
  | _, [] => false
  | [], _ :: _ => true
  | x :: a', y :: b' =>
      if (x <? y)%N then true
      else if (y <? x)%N then false
      else str_lt a' b'
  end.

(** ** String.prototype.split on a one-code-unit separator class *)
Fixpoint split (is_sep : N -> bool) (s : jsstring) : list jsstring :=
  match s with
  | [] => [[]]
  | c :: r =>
      if is_sep c then [] :: split is_sep r
      else match split is_sep r with
           | t :: ts => (c :: t) :: ts
           | [] => [[c]]
           end
  end.

(** ** Values held in the arrays of [compareVersions] *)
Inductive value :=
  | VNum (x : number)
  | VStr (s : jsstring).

(** ToBoolean; [None] is [undefined]. *)
Definition truthy (v : option value) : bool :=
  match v with
  | None => false
  | Some (VNum (S754_zero _)) | Some (VNum S754_nan) => false
  | Some (VNum _) => true
  | Some (VStr []) => false
  | Some (VStr _) => true
  end.

(** [v || d] *)
Definition or_default (v : option value) (d : value) : value :=
  match v with
  | Some x => if truthy v then x else d
  | None => d
  end.

(** String(v) *)
Definition to_string (v : value) : jsstring :=
  match v with
  | VNum x => number_to_string x
  | VStr s => s
  end.

End JS.

Import JS.

(* ===================================================================== *)
(** * compareVersions *)
(* ===================================================================== *)

(** The separator class of the pattern [/[.-]/]. *)
Definition is_version_separator (c : N) : bool := N.eqb c 46 || N.eqb c 45.

(** The callback of [parseVersion]:
    [part => { const num = parseInt(part); return isNaN(num) ? part : num; }] *)
Definition parsePart (part : jsstring) : value :=
  let num := parseInt part 0 in
  if isNaN num then VStr part else VNum num.

Definition parseVersion (v : jsstring) : list value :=
  List.map parsePart (split is_version_separator v).

(** One iteration of the comparison loop: [Some r] is [return r], [None]
    falls through to the next index. *)
Definition compareParts (curr lat : value) : option Z :=
  match curr, lat with
  | VNum c, VNum l =>
      if num_lt c l then Some (-1)
      else if num_gt c l then Some 1
      else None
  | _, _ =>
      let currStr := to_string curr in
      let latStr := to_string lat in
      if str_lt currStr latStr then Some (-1)
      else if str_lt latStr currStr then Some 1
      else None
  end.

(** The [for] loop, with [steps] iterations left from index [i]. *)
Fixpoint compareLoop (steps i : nat) (currentParts latestParts : list value) : Z :=
  match steps with
  | O => 0
  | S n =>
      let curr := or_default (currentParts !! i) (VNum pos_zero) in
      let lat := or_default (latestParts !! i) (VNum pos_zero) in
      match compareParts curr lat with
      | Some r => r
      | None => compareLoop n (S i) currentParts latestParts
      end
  end.

Definition compareVersions (current latest : jsstring) : Z :=
  let currentParts := parseVersion current in
  let latestParts := parseVersion latest in
  compareLoop (Nat.max (length currentParts) (length latestParts)) 0
    currentParts latestParts.

(** ** Token classes used to state what [parsePart] does *)

Definition is_number (v : value) : bool :=
  match v with VNum _ => true | VStr _ => false end.

(** A token made of decimal digits only, and of at least one. *)
Definition fully_numeric (tok : jsstring) : bool :=
  match tok with
  | [] => false
  | _ => forallb is_decimal_digit tok
  end.

(** A token that, after leading white space and one optional sign, starts
    with a decimal digit, or with [0x] / [0X] and a hexadecimal digit. *)
Definition has_numeric_prefix (tok : jsstring) : bool :=
  let s := trim_start tok in
  let s := match s with
           | c :: r => if N.eqb c 43 || N.eqb c 45 then r else s
           | [] => []
           end in
  match s with
  | [] => false
  | [c0] => is_decimal_digit c0
  | c0 :: c1 :: r =>
      if N.eqb c0 48 && (N.eqb c1 120 || N.eqb c1 88)
      then match r with c2 :: _ => is_radix_digit 16 c2 | [] => false end
      else is_decimal_digit c0
  end.

(* ===================================================================== *)
(** * Data model *)
(* ===================================================================== *)

(** A path is the list of its components: [path.join] appends components
    and [path.dirname] drops the last one.  (Components holding a
    separator or a dot segment are outside this model.) *)
Definition Path := list jsstring.
Definition path_join (p : Path) (names : list jsstring) : Path := p ++ names.
Definition path_dirname (p : Path) : Path := removelast p.

(** [new Date(ms).toISOString()], from the civil calendar of the day count. *)
Definition pad (width : nat) (z : Z) : jsstring :=
  let ds := decimal_digits z in
  repeat 48%N (width - length ds) ++ ds.

Definition civil_from_days (days : Z) : Z * Z * Z :=
  let z := days + 719468 in
  let era := z / 146097 in
  let doe := z - era * 146097 in
  let yoe := (doe - doe / 1460 + doe / 36524 - doe / 146096) / 365 in
  let doy := doe - (365 * yoe + yoe / 4 - yoe / 100) in
  let mp := (5 * doy + 2) / 153 in
  let d := doy - (153 * mp + 2) / 5 + 1 in
  let m := if mp <? 10 then mp + 3 else mp - 9 in
  let y := yoe + era * 400 + (if m <=? 2 then 1 else 0) in
  (y, m, d).

Definition toISOString (ms : Z) : jsstring :=
  let '(y, m, d) := civil_from_days (ms / 86400000) in
  let t := ms mod 86400000 in
  let year := if (0 <=? y) && (y <=? 9999) then pad 4 y
              else (if y <? 0 then 45%N else 43%N) :: pad 6 (Z.abs y) in
  year ++ [45%N] ++ pad 2 m ++ [45%N] ++ pad 2 d ++ [84%N]
       ++ pad 2 (t / 3600000) ++ [58%N] ++ pad 2 (t / 60000 mod 60)
       ++ [58%N] ++ pad 2 (t / 1000 mod 60) ++ [46%N] ++ pad 3 (t mod 1000)
       ++ [90%N].

(** ** Catalog versions (the objects returned by [api.getLatestVersion]) *)
Module Catalog.
Record File := {
  url : jsstring;
  filename : jsstring;
  primary : bool;
  size : option Z             (* [None]: the property is absent *)
}.
Record Version := {
  id : jsstring;
  version_number : jsstring;
  files : list File;
  game_versions : list jsstring;
  loaders : list jsstring
}.
End Catalog.

(** ** Registry entries ([mod-registry.json], keyed by file name) *)
Module ModInfo.
Record t := {
  name : jsstring;
  version : option jsstring;     (* [None]: the property is absent *)
  projectId : option jsstring;
  fileName : jsstring;
  updatedAt : jsstring;
  versionId : jsstring;
  gameVersions : list jsstring;
  loaders : list jsstring
}.
End ModInfo.

(** ** Installed mods, as built by [getInstalledMods] *)
Module Mod.
Record t := {
  fileName : jsstring;
  filePath : Path;
  name : jsstring;
  currentVersion : option jsstring;
  projectId : jsstring;
  lastModified : Z
}.
End Mod.

(** ** Update reports: [{...mod, hasUpdate, latestVersion, canUpdate,
    updateSize}] and, on failure, [{...mod, hasUpdate: false, error}].
    A property that the object does not carry is [None]. *)
Module UpdateInfo.
Record t := {
  installed : Mod.t;
  hasUpdate : bool;
  latestVersion : option Catalog.Version;
  canUpdate : option bool;
  updateSize : option Z;
  error : option jsstring
}.
End UpdateInfo.

Module Profile.
Record t := {
  id : jsstring;
  path : Path;
  modsPath : Path;
  gameVersion : jsstring;
  loader : jsstring
}.
End Profile.

(** ** Results of [updateMod] and entries of [updateMultipleMods] *)
Module UpdateResult.
Record t := {
  oldFile : jsstring;
  newFile : jsstring;
  newVersion : jsstring
}.
End UpdateResult.

Inductive BatchResult :=
  | BatchSuccess (name : jsstring) (result : UpdateResult.t)
      (* [{ mod: mod.name, ...result }], with [success: true] *)
  | BatchFailure (name : jsstring) (error : jsstring).
      (* [{ mod: mod.name, success: false, error: error.message }] *)

Definition success (r : BatchResult) : bool :=
  match r with BatchSuccess _ _ => true | BatchFailure _ _ => false end.

Definition batch_mod (r : BatchResult) : jsstring :=
  match r with BatchSuccess n _ | BatchFailure n _ => n end.

(** ** Events of the emitter *)
Inductive Event :=
  | updateCheckStarted (profileId : jsstring) (modCount : nat)
  | checkingMod (name : jsstring) (progress total : nat)
  | updateCheckCompleted (profileId : jsstring)
      (results : list UpdateInfo.t) (updatesAvailable : nat)
  | updateStarted (name : jsstring)
  | downloading (name : jsstring) (progress : number)
  | updateCompleted (name : jsstring)
      (oldVersion : option jsstring) (newVersion : jsstring)
  | updateFailed (name : jsstring) (error : jsstring)
  | batchUpdateProgress (current total : nat) (modName : jsstring)
  | batchUpdateCompleted (results : list BatchResult).

(* ===================================================================== *)
(** * The world: file system, emitter, collaborators *)
(* ===================================================================== *)

(** A file holds raw bytes or a registry object serialised as JSON. *)
Inductive Content :=
  | Raw (bytes : list N)
  | RegistryJson (registry : gmap jsstring ModInfo.t).

Inductive Node :=
  | File (content : Content) (mtime : Z)
  | Dir (mtime : Z).

(** Calls that leave the process. *)
Inductive IoOp :=
  | PathExists (p : Path)
  | EnsureDir (p : Path)
  | Copy (src dst : Path)
  | Remove (p : Path)
  | Move (src dst : Path)
  | ReadDir (p : Path)
  | Stat (p : Path)
  | ReadJson (p : Path)
  | WriteJson (p : Path)
  | HttpGet (url : jsstring)
  | OpenWrite (p : Path)
  | WriteChunk (p : Path)
  | GetLatestVersion (projectId gameVersion loader : jsstring).

(** What an observer sees, in order: emitted events and external calls. *)
Inductive Action :=
  | Emit (e : Event)
  | Io (op : IoOp).

Record World := {
  fs : gmap Path Node;
  trace : list Action;          (* oldest first *)
  tick : nat;                   (* external calls made so far *)
  isUpdating : bool             (* [this.isUpdating] *)
}.

Record HttpResponse := {
  content_length : option jsstring;     (* the [content-length] header *)
  chunks : list (list N)                (* the ['data'] events of the stream *)
}.

(** The environment: what the collaborators answer to the [t]-th external
    call.  [io_fault t = Some msg] makes that call fail with an error whose
    message is [msg]. *)
Record Env := {
  io_fault : nat -> option jsstring;
  date_now : nat -> Z;
  http_get : nat -> jsstring -> HttpResponse;
  api_getLatestVersion :
    nat -> jsstring -> jsstring -> jsstring -> option Catalog.Version;
  getProfile : jsstring -> option Profile.t;
  getProfilePath : jsstring -> Path
}.

(** ** Async functions: state passing, with rejection *)
Inductive outcome (A : Type) :=
  | Ok (a : A)
  | Throw (message : jsstring).
Arguments Ok {A} a.
Arguments Throw {A} message.

Definition M (A : Type) : Type := World -> outcome A * World.

Definition ret {A} (a : A) : M A := fun w => (Ok a, w).
Definition throw {A} (message : jsstring) : M A := fun w => (Throw message, w).
Definition bind {A B} (m : M A) (f : A -> M B) : M B :=
  fun w => match m w with
           | (Ok a, w') => f a w'
           | (Throw e, w') => (Throw e, w')
           end.
(** [try { m } catch (error) { handler error }] *)
Definition try_catch {A} (m : M A) (handler : jsstring -> M A) : M A :=
  fun w => match m w with
           | (Ok a, w') => (Ok a, w')
           | (Throw e, w') => handler e w'
           end.

#[global] Instance M_ret : MRet M := @ret.
#[global] Instance M_bind : MBind M := fun A B f m => bind m f.

(** [this.emit(event)]: the event is appended to the trace. *)
Definition emit (e : Event) : M unit :=
  fun w => (Ok tt, {| fs := fs w; trace := trace w ++ [Emit e];
                     tick := tick w; isUpdating := isUpdating w |}).

Definition get_fs : M (gmap Path Node) := fun w => (Ok (fs w), w).
Definition put_fs (f : gmap Path Node) : M unit :=
  fun w => (Ok tt, {| fs := f; trace := trace w;
                     tick := tick w; isUpdating := isUpdating w |}).
Definition set_isUpdating (b : bool) : M unit :=
  fun w => (Ok tt, {| fs := fs w; trace := trace w;
                     tick := tick w; isUpdating := b |}).

(* ===================================================================== *)
(** * External calls *)
(* ===================================================================== *)

Section Operations.

Context (E : Env).

(** Every external call is logged and advances the tick; the result is the
    fault the environment injects into it, if any. *)
Definition perform (op : IoOp) : M (option jsstring) :=
  fun w => (Ok (io_fault E (tick w)),
            {| fs := fs w; trace := trace w ++ [Io op];
               tick := S (tick w); isUpdating := isUpdating w |}).

(** A call that rejects when the environment makes it fail. *)
Definition io (op : IoOp) : M unit :=
  fault ← perform op;
  match fault with
  | Some message => throw message
  | None => ret tt
  end.

(** [Date.now()] *)
Definition Date_now : M Z := fun w => (Ok (date_now E (tick w)), w).

(** ** fs-extra *)

Definition is_dir (f : gmap Path Node) (p : Path) : bool :=
  match p, f !! p with
  | [], _ => true
  | _, Some (Dir _) => true
  | _, _ => false
  end.

Definition is_file (f : gmap Path Node) (p : Path) : bool :=
  match f !! p with Some (File _ _) => true | _ => false end.

(** The non-empty prefixes of a path, shortest first. *)
Definition ancestors_and_self (p : Path) : list Path :=
  List.map (fun n => take n p) (seq 1 (length p)).

(** [mkdir -p]: fails on a component that is a file. *)
Definition mkdirs (p : Path) (now : Z) (f : gmap Path Node)
  : option (gmap Path Node) :=
  if existsb (is_file f) (ancestors_and_self p) then None
  else Some (fold_left
               (fun acc q => match acc !! q with
                             | None => <[q := Dir now]> acc
                             | Some _ => acc
                             end)
               (ancestors_and_self p) f).

(** The subtree rooted at [src], re-rooted at [dst]. *)
Definition rerooted (src dst : Path) (f : gmap Path Node) : gmap Path Node :=
  list_to_map
    (omap (fun '(q, n) =>
             if bool_decide (src `prefix_of` q)
             then Some (dst ++ drop (length src) q, n) else None)
          (map_to_list f)).

Definition without_subtree (p : Path) (f : gmap Path Node) : gmap Path Node :=
  filter (fun '(q, _) => ¬ p `prefix_of` q) f.

(** [fs.pathExists(p)]: never rejects; an error reads as [false]. *)
Definition pathExists (p : Path) : M bool :=
  fault ← perform (PathExists p);
  f ← get_fs;
  ret (match fault with
       | Some _ => false
       | None => bool_decide (is_Some (f !! p))
       end).

(** [fs.ensureDir(p)] *)
Definition ensureDir (p : Path) : M unit :=
  io (EnsureDir p);;
  now ← Date_now;
  f ← get_fs;
  match mkdirs p now f with
  | Some f' => put_fs f'
  | None => throw (js "ENOTDIR: not a directory")
  end.

(** [fs.copy(src, dst)]: overwrites, creates the parent directory. *)
Definition copy (src dst : Path) : M unit :=
  io (Copy src dst);;
  now ← Date_now;
  f ← get_fs;
  match f !! src with
  | None => throw (js "ENOENT: no such file or directory")
  | Some (File c _) =>
      if is_dir f dst
      then throw (js "Cannot overwrite directory with non-directory")
      else match mkdirs (path_dirname dst) now f with
           | Some f' => put_fs (<[dst := File c now]> f')
           | None => throw (js "ENOTDIR: not a directory")
           end
  | Some (Dir _) =>
      if is_file f dst
      then throw (js "Cannot overwrite non-directory with directory")
      else match mkdirs (path_dirname dst) now f with
           | Some f' => put_fs (rerooted src dst f ∪ f')
           | None => throw (js "ENOTDIR: not a directory")
           end
  end.

(** [fs.remove(p)]: recursive, silent when [p] is absent. *)
Definition remove (p : Path) : M unit :=
  io (Remove p);;
  f ← get_fs;
  put_fs (without_subtree p f).

(** [fs.move(src, dst)]: does not overwrite. *)
Definition move (src dst : Path) : M unit :=
  io (Move src dst);;
  now ← Date_now;
  f ← get_fs;
  match f !! src with
  | None => throw (js "ENOENT: no such file or directory")
  | Some _ =>
      if bool_decide (is_Some (f !! dst)) then throw (js "dest already exists.")
      else match mkdirs (path_dirname dst) now f with
           | Some f' => put_fs (rerooted src dst f ∪ without_subtree src f')
           | None => throw (js "ENOTDIR: not a directory")
           end
  end.

(** [fs.readdir(p)]: the names of the entries of [p]. *)
Definition entries (p : Path) (f : gmap Path Node) : list jsstring :=
  omap (fun '(q, _) =>
          match last q with
          | Some n => if bool_decide (path_dirname q = p) then Some n else None
          | None => None
          end)
       (map_to_list f).

Definition readdir (p : Path) : M (list jsstring) :=
  io (ReadDir p);;
  f ← get_fs;
  if is_dir f p then ret (entries p f)
  else if is_file f p then throw (js "ENOTDIR: not a directory")
  else throw (js "ENOENT: no such file or directory").

(** [(await fs.stat(p)).mtime] *)
Definition stat_mtime (p : Path) : M Z :=
  io (Stat p);;
  f ← get_fs;
  match f !! p with
  | Some (File _ t) | Some (Dir t) => ret t
  | None => throw (js "ENOENT: no such file or directory")
  end.

(** [fs.readJson(p)] *)
Definition readJson (p : Path) : M (gmap jsstring ModInfo.t) :=
  io (ReadJson p);;
  f ← get_fs;
  match f !! p with
  | Some (File (RegistryJson r) _) => ret r
  | Some (File (Raw _) _) => throw (js "Unexpected token in JSON")
  | Some (Dir _) => throw (js "EISDIR: illegal operation on a directory")
  | None => throw (js "ENOENT: no such file or directory")
  end.

(** [fs.writeJson(p, registry, { spaces: 2 })] *)
Definition writeJson (p : Path) (registry : gmap jsstring ModInfo.t) : M unit :=
  io (WriteJson p);;
  now ← Date_now;
  f ← get_fs;
  if is_dir f p then throw (js "EISDIR: illegal operation on a directory")
  else if is_dir f (path_dirname p)
       then put_fs (<[p := File (RegistryJson registry) now]> f)
       else throw (js "ENOENT: no such file or directory").

(** [fs.createWriteStream(p)]: opening truncates or creates the file. *)
Definition openWrite (p : Path) : M unit :=
  io (OpenWrite p);;
  now ← Date_now;
  f ← get_fs;
  if is_dir f p then throw (js "EISDIR: illegal operation on a directory")
  else if is_dir f (path_dirname p)
       then put_fs (<[p := File (Raw []) now]> f)
       else throw (js "ENOENT: no such file or directory").

Definition writeChunk (p : Path) (chunk : list N) : M unit :=
  io (WriteChunk p);;
  now ← Date_now;
  f ← get_fs;
  match f !! p with
  | Some (File (Raw bytes) _) => put_fs (<[p := File (Raw (bytes ++ chunk)) now]> f)
  | _ => throw (js "EBADF: bad file descriptor")
  end.

End Operations.

(* ===================================================================== *)
(** * UpdateManager *)
(* ===================================================================== *)

(** [Array.prototype.sort()] on strings: ascending code-unit order. *)
Definition str_le (a b : jsstring) : Prop := str_lt b a = false.

#[global] Instance str_le_dec : RelDecision str_le :=
  fun a b => bool_eq_dec (str_lt b a) false.

Definition sort_strings (l : list jsstring) : list jsstring :=
  merge_sort str_le l.

Definition startsWith (s prefix : jsstring) : bool :=
  bool_decide (prefix `prefix_of` s).

Definition endsWith (s suffix : jsstring) : bool :=
  bool_decide (suffix `suffix_of` s).

(** [a || 0] on a size that may be absent. *)
Definition size_or_zero (s : option Z) : Z := default 0 s.

Section UpdateManager.

Context (E : Env).

Definition registryPath (profileId : jsstring) : Path :=
  path_join (getProfilePath E profileId) [js "mod-registry.json"].

Definition loadModRegistry (profileId : jsstring) : M (gmap jsstring ModInfo.t) :=
  found ← pathExists E (registryPath profileId);
  if (found : bool) then readJson E (registryPath profileId) else ret ∅.

Definition updateModRegistry (profileId oldFileName : jsstring)
    (modInfo : ModInfo.t) : M unit :=
  registry ← loadModRegistry profileId;
  let registry :=
    if bool_decide (oldFileName ≠ ModInfo.fileName modInfo)
    then delete oldFileName registry else registry in
  writeJson E (registryPath profileId)
    (<[ModInfo.fileName modInfo := modInfo]> registry).

Definition backupDir (profile : Profile.t) : Path :=
  path_join (Profile.path profile) [js "backups"; js "mods"].

Definition createBackup (m : Mod.t) (profile : Profile.t) : M Path :=
  ensureDir E (backupDir profile);;
  now ← Date_now E;
  let backupName :=
    Mod.fileName m ++ js ".backup." ++ number_to_string (of_Z now) in
  let backupPath := path_join (backupDir profile) [backupName] in
  copy E (Mod.filePath m) backupPath;;
  ret backupPath.

Definition restoreFromBackup (m : Mod.t) (profile : Profile.t) : M unit :=
  found ← pathExists E (backupDir profile);
  if negb found then ret tt
  else
    backups ← readdir E (backupDir profile);
    let modBackups :=
      reverse (sort_strings
                 (List.filter
                    (fun f => startsWith f (Mod.fileName m ++ js ".backup."))
                    backups)) in
    match modBackups with
    | latestBackup :: _ =>
        copy E (path_join (backupDir profile) [latestBackup]) (Mod.filePath m)
    | [] => ret tt
    end.

(** [totalSize ? (downloadedSize / totalSize) * 100 : 0] *)
Definition download_progress (totalSize downloadedSize : number) : number :=
  if truthy (Some (VNum totalSize))
  then SFmul prec emax (SFdiv prec emax downloadedSize totalSize) (of_Z 100)
  else pos_zero.

(** The ['data'] events of the response stream, in order: the progress
    listener runs, then the chunk is piped to the writer. *)
Fixpoint pump (destination : Path) (onProgress : number -> M unit)
    (totalSize downloadedSize : number) (data : list (list N)) : M unit :=
  match data with
  | [] => ret tt
  | chunk :: rest =>
      let downloadedSize :=
        SFadd prec emax downloadedSize (of_nat (length chunk)) in
      onProgress (math_round (download_progress totalSize downloadedSize));;
      writeChunk E destination chunk;;
      pump destination onProgress totalSize downloadedSize rest
  end.

Definition axios_get (url : jsstring) : M HttpResponse :=
  fun w => (io E (HttpGet url);; ret (http_get E (tick w) url)) w.

Definition downloadWithProgress (url : jsstring) (destination : Path)
    (onProgress : number -> M unit) : M unit :=
  response ← axios_get url;
  let totalSize :=
    parseInt (default (js "undefined") (content_length response)) 10 in
  ensureDir E (path_dirname destination);;
  openWrite E destination;;
  pump destination onProgress totalSize pos_zero (chunks response).

(** [files.find(f => f.primary) || files[0]] *)
Definition pickDownloadFile (files : list Catalog.File) : option Catalog.File :=
  match List.find Catalog.primary files with
  | Some f => Some f
  | None => head files
  end.

(** The [try] block of [updateMod]. *)
Definition updateMod_try (m : Mod.t) (latestVersion : Catalog.Version)
    (profile : Profile.t) : M UpdateResult.t :=
  createBackup m profile;;
  match pickDownloadFile (Catalog.files latestVersion) with
  | None => throw (js "Cannot read properties of undefined (reading 'filename')")
  | Some downloadFile =>
      let tempPath :=
        path_join (Profile.path profile)
                  [js "temp"; Catalog.filename downloadFile] in
      downloadWithProgress (Catalog.url downloadFile) tempPath
        (fun progress => emit (downloading (Mod.name m) progress));;
      found ← pathExists E (Mod.filePath m);
      (if (found : bool) then remove E (Mod.filePath m) else ret tt);;
      let newPath :=
        path_join (path_dirname (Mod.filePath m))
                  [Catalog.filename downloadFile] in
      move E tempPath newPath;;
      now ← Date_now E;
      updateModRegistry (Profile.id profile) (Mod.fileName m)
        {| ModInfo.name := Mod.name m;
           ModInfo.version := Some (Catalog.version_number latestVersion);
           ModInfo.projectId := Some (Mod.projectId m);
           ModInfo.fileName := Catalog.filename downloadFile;
           ModInfo.updatedAt := toISOString now;
           ModInfo.versionId := Catalog.id latestVersion;
           ModInfo.gameVersions := Catalog.game_versions latestVersion;
           ModInfo.loaders := Catalog.loaders latestVersion |};;
      emit (updateCompleted (Mod.name m) (Mod.currentVersion m)
              (Catalog.version_number latestVersion));;
      ret {| UpdateResult.oldFile := Mod.fileName m;
             UpdateResult.newFile := Catalog.filename downloadFile;
             UpdateResult.newVersion := Catalog.version_number latestVersion |}
  end.

(** The [catch (error)] block of [updateMod]. *)
Definition updateMod_catch (m : Mod.t) (profile : Profile.t)
    (error : jsstring) : M UpdateResult.t :=
  emit (updateFailed (Mod.name m) error);;
  restoreFromBackup m profile;;
  throw error.

Definition updateMod (report : UpdateInfo.t) (profile : Profile.t)
    : M UpdateResult.t :=
  let m := UpdateInfo.installed report in
  match UpdateInfo.latestVersion report with
  | None => throw (js "No update available")
  | Some latestVersion =>
      emit (updateStarted (Mod.name m));;
      try_catch (updateMod_try m latestVersion profile)
                (updateMod_catch m profile)
  end.

(** The [for] loop of [updateMultipleMods], at index [i] with [mods] left. *)
Fixpoint batchLoop (total i : nat) (mods : list UpdateInfo.t)
    (profile : Profile.t) (results : list BatchResult) : M (list BatchResult) :=
  match mods with
  | [] => ret results
  | report :: rest =>
      let name := Mod.name (UpdateInfo.installed report) in
      results ← try_catch
        (emit (batchUpdateProgress (i + 1) total name);;
         result ← updateMod report profile;
         ret (results ++ [BatchSuccess name result]))
        (fun error => ret (results ++ [BatchFailure name error]));
      batchLoop total (S i) rest profile results
  end.

Definition updateMultipleMods (mods : list UpdateInfo.t) (profile : Profile.t)
    : M (list BatchResult) :=
  set_isUpdating true;;
  results ← batchLoop (length mods) 0 mods profile [];
  set_isUpdating false;;
  emit (batchUpdateCompleted results);;
  ret results.

(** The [for ... of jarFiles] loop of [getInstalledMods]. *)
Fixpoint collectMods (modsPath : Path) (modRegistry : gmap jsstring ModInfo.t)
    (jarFiles : list jsstring) (installedMods : list Mod.t) : M (list Mod.t) :=
  match jarFiles with
  | [] => ret installedMods
  | file :: rest =>
      let filePath := path_join modsPath [file] in
      match modRegistry !! file with
      | Some modInfo =>
          match ModInfo.projectId modInfo with
          | Some (c :: p) =>
              mtime ← stat_mtime E filePath;
              collectMods modsPath modRegistry rest
                (installedMods ++
                   [{| Mod.fileName := file;
                       Mod.filePath := filePath;
                       Mod.name := ModInfo.name modInfo;
                       Mod.currentVersion := ModInfo.version modInfo;
                       Mod.projectId := c :: p;
                       Mod.lastModified := mtime |}])
          | _ => collectMods modsPath modRegistry rest installedMods
          end
      | None => collectMods modsPath modRegistry rest installedMods
      end
  end.

Definition getInstalledMods (profile : Profile.t) : M (list Mod.t) :=
  let modsPath := Profile.modsPath profile in
  found ← pathExists E modsPath;
  if negb found then ret []
  else
    modRegistry ← loadModRegistry (Profile.id profile);
    files ← readdir E modsPath;
    let jarFiles := List.filter (fun f => endsWith f (js ".jar")) files in
    collectMods modsPath modRegistry jarFiles [].

Definition api_latest (projectId gameVersion loader : jsstring)
    : M (option Catalog.Version) :=
  fun w => (io E (GetLatestVersion projectId gameVersion loader);;
            ret (api_getLatestVersion E (tick w) projectId gameVersion loader)) w.

(** [latestVersion.files[0]?.size || 0] *)
Definition first_file_size (latestVersion : Catalog.Version) : Z :=
  match Catalog.files latestVersion with
  | f :: _ => size_or_zero (Catalog.size f)
  | [] => 0
  end.

(** The body of the loop of [checkForUpdates]: the report of one mod. *)
Definition checkMod (profile : Profile.t) (m : Mod.t) (i total : nat)
    : M UpdateInfo.t :=
  try_catch
    (emit (checkingMod (Mod.name m) (i + 1) total);;
     latestVersion ← api_latest (Mod.projectId m)
                       (Profile.gameVersion profile) (Profile.loader profile);
     let updateInfo :=
       {| UpdateInfo.installed := m;
          UpdateInfo.hasUpdate := false;
          UpdateInfo.latestVersion := None;
          UpdateInfo.canUpdate := Some false;
          UpdateInfo.updateSize := None;
          UpdateInfo.error := None |} in
     match latestVersion with
     | None => ret updateInfo
     | Some latest =>
         match Mod.currentVersion m with
         | None =>
             throw (js "Cannot read properties of undefined (reading 'split')")
         | Some current =>
             if compareVersions current (Catalog.version_number latest) <? 0
             then ret {| UpdateInfo.installed := m;
                         UpdateInfo.hasUpdate := true;
                         UpdateInfo.latestVersion := Some latest;
                         UpdateInfo.canUpdate := Some true;
                         UpdateInfo.updateSize := Some (first_file_size latest);
                         UpdateInfo.error := None |}
             else ret updateInfo
         end
     end)
    (fun error =>
       ret {| UpdateInfo.installed := m;
              UpdateInfo.hasUpdate := false;
              UpdateInfo.latestVersion := None;
              UpdateInfo.canUpdate := None;
              UpdateInfo.updateSize := None;
              UpdateInfo.error := Some error |}).

Fixpoint checkLoop (profile : Profile.t) (total i : nat)
    (installedMods : list Mod.t) (updateResults : list UpdateInfo.t)
    : M (list UpdateInfo.t) :=
  match installedMods with
  | [] => ret updateResults
  | m :: rest =>
      updateInfo ← checkMod profile m i total;
      checkLoop profile total (S i) rest (updateResults ++ [updateInfo])
  end.

Definition checkForUpdates (profileId : jsstring) : M (list UpdateInfo.t) :=
  match getProfile E profileId with
  | None => throw (js "Cannot read properties of null (reading 'modsPath')")
  | Some profile =>
      installedMods ← getInstalledMods profile;
      emit (updateCheckStarted profileId (length installedMods));;
      updateResults ← checkLoop profile (length installedMods) 0 installedMods [];
      emit (updateCheckCompleted profileId updateResults
              (length (List.filter UpdateInfo.hasUpdate updateResults)));;
      ret updateResults
  end.

End UpdateManager.

(* ===================================================================== *)
(** * Vocabulary of the statements *)
(* ===================================================================== *)

(** [emits P m]: every run of [m] extends the trace, and only with actions
    satisfying [P]. *)
Definition emits {A} (P : Action -> Prop) (m : M A) : Prop :=
  forall w r w', m w = (r, w') ->
    exists d, trace w' = trace w ++ d /\ Forall P d.

(** [ends_with ev P m]: as [emits P m], and a run that returns has emitted
    [ev] last, while a run that throws has not emitted it. *)
Definition ends_with {A} (ev : Event) (P : Action -> Prop) (m : M A) : Prop :=
  forall w r w', m w = (r, w') ->
    exists d, Forall P d /\
      trace w' = trace w ++ d ++
                 match r with Ok _ => [Emit ev] | Throw _ => [] end.

Definition is_io (a : Action) : Prop :=
  match a with Io _ => True | Emit _ => False end.

(** The two events that close an update: [updateCompleted], [updateFailed]. *)
Definition is_terminal (a : Action) : bool :=
  match a with
  | Emit (updateCompleted _ _ _) | Emit (updateFailed _ _) => true
  | _ => false
  end.

Definition not_terminal (a : Action) : Prop := is_terminal a = false.

(** The entry that [updateMultipleMods] pushes for a report whose update
    runs from the world [w]. *)
Definition batchEntry (E : Env) (report : UpdateInfo.t) (profile : Profile.t)
    (w : World) : BatchResult :=
  let name := Mod.name (UpdateInfo.installed report) in
  match fst (updateMod E report profile w) with
  | Ok result => BatchSuccess name result
  | Throw error => BatchFailure name error
  end.

(** The report pushed when the loop body of [checkForUpdates] fails. *)
Definition errorReport (m : Mod.t) (error : jsstring) : UpdateInfo.t :=
  {| UpdateInfo.installed := m;
     UpdateInfo.hasUpdate := false;
     UpdateInfo.latestVersion := None;
     UpdateInfo.canUpdate := None;
     UpdateInfo.updateSize := None;
     UpdateInfo.error := Some error |}.

(** The report that [checkForUpdates] pushes for a mod checked from the
    world [w] ([checkMod] always returns one). *)
Definition checkReport (E : Env) (profile : Profile.t) (m : Mod.t)
    (i total : nat) (w : World) : UpdateInfo.t :=
  match fst (checkMod E profile m i total w) with
  | Ok updateInfo => updateInfo
  | Throw error => errorReport m error
  end.

(* ===================================================================== *)
(** * A concrete installation *)
(* ===================================================================== *)

Module Example.

Definition profile : Profile.t :=
  {| Profile.id := js "p1";
     Profile.path := [js "data"; js "profiles"; js "p1"];
     Profile.modsPath := [js "mods"];
     Profile.gameVersion := js "1.20.1";
     Profile.loader := js "fabric" |}.

(** Version 0.5.3 of the mod: a sources archive first, the primary jar
    second. *)
Definition sources : Catalog.File :=
  {| Catalog.url := js "https://cdn/sodium-0.5.3-sources.jar";
     Catalog.filename := js "sodium-0.5.3-sources.jar";
     Catalog.primary := false;
     Catalog.size := Some 10 |}.

Definition jar : Catalog.File :=
  {| Catalog.url := js "https://cdn/sodium-0.5.3.jar";
     Catalog.filename := js "sodium-0.5.3.jar";
     Catalog.primary := true;
     Catalog.size := Some 4 |}.

Definition latest : Catalog.Version :=
  {| Catalog.id := js "v053";
     Catalog.version_number := js "0.5.3";
     Catalog.files := [sources; jar];
     Catalog.game_versions := [js "1.20.1"];
     Catalog.loaders := [js "fabric"] |}.

Definition entry : ModInfo.t :=
  {| ModInfo.name := js "Sodium";
     ModInfo.version := Some (js "0.5.0");
     ModInfo.projectId := Some (js "AANobbMI");
     ModInfo.fileName := js "sodium-0.5.0.jar";
     ModInfo.updatedAt := js "2024-01-01T00:00:00.000Z";
     ModInfo.versionId := js "v050";
     ModInfo.gameVersions := [js "1.20.1"];
     ModInfo.loaders := [js "fabric"] |}.

Definition installed : Mod.t :=
  {| Mod.fileName := js "sodium-0.5.0.jar";
     Mod.filePath := [js "mods"; js "sodium-0.5.0.jar"];
     Mod.name := js "Sodium";
     Mod.currentVersion := Some (js "0.5.0");
     Mod.projectId := js "AANobbMI";
     Mod.lastModified := 5 |}.

(** The report of an available update, and a report without one. *)
Definition report : UpdateInfo.t :=
  {| UpdateInfo.installed := installed;
     UpdateInfo.hasUpdate := true;
     UpdateInfo.latestVersion := Some latest;
     UpdateInfo.canUpdate := Some true;
     UpdateInfo.updateSize := Some 10;
     UpdateInfo.error := None |}.

Definition up_to_date : UpdateInfo.t :=
  {| UpdateInfo.installed := installed;
     UpdateInfo.hasUpdate := false;
     UpdateInfo.latestVersion := None;
     UpdateInfo.canUpdate := Some false;
     UpdateInfo.updateSize := None;
     UpdateInfo.error := None |}.

(** Two more tracked mods, and a file that the registry does not know. *)
Definition tracked (name file version project : string) : ModInfo.t :=
  {| ModInfo.name := js name;
     ModInfo.version := Some (js version);
     ModInfo.projectId := Some (js project);
     ModInfo.fileName := js file;
     ModInfo.updatedAt := js "2024-01-01T00:00:00.000Z";
     ModInfo.versionId := js "";
     ModInfo.gameVersions := [js "1.20.1"];
     ModInfo.loaders := [js "fabric"] |}.

Definition registry : gmap jsstring ModInfo.t :=
  {[ js "sodium-0.5.0.jar" := entry;
     js "lithium-0.11.2.jar" :=
       tracked "Lithium" "lithium-0.11.2.jar" "0.11.2" "gvQqBUqZ";
     js "iris-1.6.4.jar" := tracked "Iris" "iris-1.6.4.jar" "1.6.4" "YL57xq9U" ]}.

Definition disk : gmap Path Node :=
  list_to_map
    [ ([js "mods"], Dir 0);
      ([js "mods"; js "sodium-0.5.0.jar"], File (Raw [1; 2; 3]%N) 5);
      ([js "mods"; js "lithium-0.11.2.jar"], File (Raw [4; 5]%N) 6);
      ([js "mods"; js "iris-1.6.4.jar"], File (Raw [6]%N) 7);
      ([js "mods"; js "readme.txt"], File (Raw []) 5);
      ([js "data"], Dir 0);
      ([js "data"; js "profiles"], Dir 0);
      ([js "data"; js "profiles"; js "p1"], Dir 0);
      ([js "data"; js "profiles"; js "p1"; js "mod-registry.json"],
       File (RegistryJson registry) 1) ].

Definition world : World :=
  {| fs := disk; trace := []; tick := 0; isUpdating := false |}.

(** The same installation before the mods folder exists. *)
Definition fresh_world : World :=
  {| fs := without_subtree [js "mods"] disk;
     trace := []; tick := 0; isUpdating := false |}.

(** An environment whose external calls fail as [faults] says. *)
Definition env (faults : nat -> option jsstring) : Env :=
  {| io_fault := faults;
     date_now := fun t => 1730570000000 + Z.of_nat t;
     http_get := fun _ _ =>
       {| content_length := Some (js "4"); chunks := [[9; 9; 9]%N; [9]%N] |};
     api_getLatestVersion := fun _ _ _ _ => Some latest;
     getProfile := fun i =>
       if bool_decide (i = js "p1") then Some profile else None;
     getProfilePath := fun i => [js "data"; js "profiles"; i] |}.

Definition healthy : nat -> option jsstring := fun _ => None.

(** The download (third external call of [updateMod]) fails. *)
Definition download_fails : nat -> option jsstring :=
  fun t => if Nat.eqb t 2 then Some (js "Network Error") else None.

(** The download fails, and so does the copy that restores the backup
    (sixth external call). *)
Definition rollback_fails : nat -> option jsstring :=
  fun t => if Nat.eqb t 2 then Some (js "Network Error")
           else if Nat.eqb t 5 then Some (js "EACCES: permission denied")
           else None.

(** The catalog fails for the second of the three mods: [checkForUpdates]
    makes seven calls to list them, then one catalog call per mod. *)
Definition catalog_fails_once : nat -> option jsstring :=
  fun t => if Nat.eqb t 8 then Some (js "Failed to get latest version: timeout")
           else None.

End Example.

(* ===================================================================== *)
(** * Further vocabulary *)
(* ===================================================================== *)

(** A version string with every separator written as a dot. *)
Definition dotted (v : jsstring) : jsstring :=
  List.map (fun c => if is_version_separator c then 46%N else c) v.

(** [keeps R m]: every run of [m] relates the world it starts from to the
    world it ends in by [R]. *)
Definition keeps {A} (R : World -> World -> Prop) (m : M A) : Prop :=
  forall w r w', m w = (r, w') -> R w w'.

(** The disk is the same. *)
Definition same_fs (w w' : World) : Prop := fs w' = fs w.

(* ===================================================================== *)
(** * Callers in the main process (src/main.js) *)
(* ===================================================================== *)

(** The choice made by [getModrinthAPI().getLatestVersion] among the
    versions the catalog answered:
    [versions.find(v => v.game_versions.includes(gameVersion) &&
                        v.loaders.includes(loader)) || versions[0]]. *)
Definition includes (l : list jsstring) (x : jsstring) : bool :=
  bool_decide (x ∈ l).

Definition matchesProfile (gameVersion loader : jsstring)
    (v : Catalog.Version) : bool :=
  includes (Catalog.game_versions v) gameVersion
  && includes (Catalog.loaders v) loader.

Definition selectVersion (versions : list Catalog.Version)
    (gameVersion loader : jsstring) : option Catalog.Version :=
  match List.find (matchesProfile gameVersion loader) versions with
  | Some v => Some v
  | None => head versions
  end.

(** Replies of the registry handlers: [{ success: true, registry }],
    [{ success: true }] and [{ success: false, error }]. *)
Inductive RegistryReply :=
  | RegistrySuccess (registry : gmap jsstring ModInfo.t)
  | RegistryFailure (error : jsstring).

Inductive WriteReply :=
  | WriteSuccess
  | WriteFailure (error : jsstring).

Section MainProcess.

Context (E : Env).

(** [ipcMain.handle('get-mod-registry', ...)] *)
Definition ipc_get_mod_registry (profileId : jsstring) : M RegistryReply :=
  try_catch
    (found ← pathExists E (registryPath E profileId);
     if (found : bool)
     then registry ← readJson E (registryPath E profileId);
          ret (RegistrySuccess registry)
     else ret (RegistrySuccess ∅))
    (fun error => ret (RegistryFailure error)).

(** [ipcMain.handle('update-mod-registry', ...)] *)
Definition ipc_update_mod_registry (profileId : jsstring)
    (modData : ModInfo.t) : M WriteReply :=
  try_catch
    (found ← pathExists E (registryPath E profileId);
     registry ← (if (found : bool) then readJson E (registryPath E profileId)
                 else ret ∅);
     writeJson E (registryPath E profileId)
       (<[ModInfo.fileName modData := modData]> registry);;
     ret WriteSuccess)
    (fun error => ret (WriteFailure error)).

(** [ipcMain.handle('check-for-updates', ...)]; [initialized] tells whether
    [this.updateManager] is set.  The reply is [{ success: true, results }]
    or [{ success: false, error }]. *)
Definition ipc_check_for_updates (initialized : bool) (profileId : jsstring)
    : M (list UpdateInfo.t + jsstring) :=
  if negb initialized then ret (inr (js "Update Manager not initialized"))
  else
    try_catch
      (results ← checkForUpdates E profileId; ret (inl results))
      (fun error => ret (inr error)).

End MainProcess.

(** The world after an external call: the call is logged and counted. *)
Definition after_call (op : IoOp) (w : World) : World :=
  {| fs := fs w; trace := trace w ++ [Io op];
     tick := S (tick w); isUpdating := isUpdating w |}.

(** The events among a list of actions, in order. *)
Definition events_of (actions : list Action) : list Event :=
  omap (fun a => match a with Emit e => Some e | Io _ => None end) actions.

(** What the trace gained between two worlds. *)
Definition new_actions (w w' : World) : list Action :=
  drop (length (trace w)) (trace w').

(** The events of [updateMod], as opposed to those of its callers. *)
Definition is_update_event (e : Event) : bool :=
  match e with
  | updateStarted _ | downloading _ _
  | updateCompleted _ _ _ | updateFailed _ _ => true
  | _ => false
  end.

(** What happens inside [updateMod]: external calls and its own events. *)
Definition inside_update (a : Action) : Prop :=
  match a with
  | Io _ => True
  | Emit e => is_update_event e = true
  end.

(** The events of a batch that are not those of the updates it runs. *)
Definition batch_events (actions : list Action) : list Event :=
  List.filter (fun e => negb (is_update_event e)) (events_of actions).

(** The calls that go to the network for a file. *)
Definition is_http (op : IoOp) : bool :=
  match op with HttpGet _ => true | _ => false end.

(** The backups of a mod found in the backup folder of a profile:
    [backups.filter(f => f.startsWith(mod.fileName + '.backup.'))]. *)
Definition backupsOf (m : Mod.t) (profile : Profile.t) (f : gmap Path Node)
    : list jsstring :=
  List.filter (fun n => startsWith n (Mod.fileName m ++ js ".backup."))
              (entries (backupDir profile) f).

(** [modInfo && modInfo.projectId] for the registry entry of a file. *)
Definition is_tracked (registry : gmap jsstring ModInfo.t) (file : jsstring)
    : bool :=
  match registry !! file with
  | Some modInfo =>
      match ModInfo.projectId modInfo with
      | Some (_ :: _) => true
      | _ => false
      end
  | None => false
  end.

(** A listed mod describes the file [file] of [modsPath] as the registry
    and the disk have it. *)
Definition describes (registry : gmap jsstring ModInfo.t)
    (disk : gmap Path Node) (modsPath : Path) (m : Mod.t) : Prop :=
  Mod.filePath m = modsPath ++ [Mod.fileName m] /\
  (exists modInfo,
      registry !! Mod.fileName m = Some modInfo /\
      ModInfo.projectId modInfo = Some (Mod.projectId m) /\
      Mod.projectId m <> [] /\
      Mod.name m = ModInfo.name modInfo /\
      Mod.currentVersion m = ModInfo.version modInfo) /\
  ((exists c, disk !! Mod.filePath m = Some (File c (Mod.lastModified m))) \/
   disk !! Mod.filePath m = Some (Dir (Mod.lastModified m))).

(* ===================================================================== *)
(** * Further situations of the concrete installation *)
(* ===================================================================== *)

Module Cases.

Import Example.

Definition registry_file : Path :=
  [js "data"; js "profiles"; js "p1"; js "mod-registry.json"].

(** The installation without its registry file. *)
Definition unregistered : World :=
  {| fs := delete registry_file disk;
     trace := []; tick := 0; isUpdating := false |}.

(** The installation with a registry file that is not JSON. *)
Definition corrupt : World :=
  {| fs := <[registry_file := File (Raw [123%N]) 1]> disk;
     trace := []; tick := 0; isUpdating := false |}.

(** The first external call fails. *)
Definition check_fails : nat -> option jsstring :=
  fun t => if Nat.eqb t 0 then Some (js "EPERM: operation not permitted")
           else None.

(** The registry entry of the new version of the mod. *)
Definition update : ModInfo.t :=
  tracked "Sodium" "sodium-0.5.3.jar" "0.5.3" "AANobbMI".

(** The installation with two backups of the mod and one of another mod. *)
Definition backups : Path :=
  [js "data"; js "profiles"; js "p1"; js "backups"; js "mods"].

Definition backed_up : World :=
  {| fs := list_to_map
             [ ([js "data"; js "profiles"; js "p1"; js "backups"], Dir 0);
               (backups, Dir 0);
               (backups ++ [js "sodium-0.5.0.jar.backup.1730000000000"],
                File (Raw [7%N]) 2);
               (backups ++ [js "sodium-0.5.0.jar.backup.1730000000009"],
                File (Raw [8%N]) 3);
               (backups ++ [js "lithium-0.11.2.jar.backup.1730000000099"],
                File (Raw [4; 5]%N) 4) ]
           ∪ disk;
     trace := []; tick := 0; isUpdating := false |}.

(** A server that sends no [content-length]. *)
Definition headless : Env :=
  {| io_fault := healthy;
     date_now := date_now (env healthy);
     http_get := fun _ _ =>
       {| content_length := None; chunks := [[9; 9; 9]%N; [9]%N] |};
     api_getLatestVersion := api_getLatestVersion (env healthy);
     getProfile := getProfile (env healthy);
     getProfilePath := getProfilePath (env healthy) |}.

(** Where the mod is downloaded to. *)
Definition temp_jar : Path :=
  [js "data"; js "profiles"; js "p1"; js "temp"; js "sodium-0.5.3.jar"].

(** A report about a mod whose file is gone. *)
Definition ghost : UpdateInfo.t :=
  {| UpdateInfo.installed :=
       {| Mod.fileName := js "ghost-1.0.jar";
          Mod.filePath := [js "mods"; js "ghost-1.0.jar"];
          Mod.name := js "Ghost";
          Mod.currentVersion := Some (js "1.0");
          Mod.projectId := js "ghost";
          Mod.lastModified := 0 |};
     UpdateInfo.hasUpdate := true;
     UpdateInfo.latestVersion := Some latest;
     UpdateInfo.canUpdate := Some true;
     UpdateInfo.updateSize := Some 10;
     UpdateInfo.error := None |}.

End Cases.

(* ===================================================================== *)
(** * The update page (src/pages/update-manager.js) *)
(* ===================================================================== *)

(** What [updateSelectedMods] submits:
    [modList.filter(mod => selectedMods.has(mod.fileName) && mod.hasUpdate)]. *)
Definition selectedModData (modList : list UpdateInfo.t)
    (selectedMods : gset jsstring) : list UpdateInfo.t :=
  List.filter
    (fun r => bool_decide (Mod.fileName (UpdateInfo.installed r) ∈ selectedMods)
              && UpdateInfo.hasUpdate r)
    modList.

(** The selection that [updateAllMods] makes before it calls
    [updateSelectedMods]: the file names of the reports with an update. *)
Definition updateAllMods_selection (modList : list UpdateInfo.t)
    : gset jsstring :=
  list_to_set
    (List.map (fun r => Mod.fileName (UpdateInfo.installed r))
              (List.filter UpdateInfo.hasUpdate modList)).

(* ===================================================================== *)
(** * Properties of the version comparator *)
(* ===================================================================== *)

Section Comparator.

(** Swapping the operands of the IEEE comparison flips its outcome. *)
Lemma SFcompare_swap (x y : number) :
  SFcompare y x = CompOpp <$> SFcompare x y.
Proof.
  destruct x as [sx|sx| |sx mx ex], y as [sy|sy| |sy my ey]; simpl;
    try reflexivity;
    try (destruct sx; reflexivity);
    try (destruct sy; reflexivity);
    try (destruct sx, sy; reflexivity).
  destruct sx, sy; simpl; try reflexivity;
    rewrite (Z.compare_antisym ex ey);
    destruct (ex ?= ey) eqn:He; simpl; try reflexivity;
    rewrite (Pos.compare_cont_antisym mx my Eq); simpl;
    try rewrite CompOpp_involutive; reflexivity.
Qed.

Lemma num_lt_asym (x y : number) : num_lt x y = true -> num_lt y x = false.
Proof.
  unfold num_lt, SFltb. rewrite (SFcompare_swap x y).
  destruct (SFcompare x y) as [[]|]; simpl; congruence.
Qed.

Lemma str_lt_asym (a : jsstring) : forall b, str_lt a b = true -> str_lt b a = false.
Proof.
  induction a as [|x a IH]; intros [|y b]; simpl; try congruence.
  destruct (N.ltb_spec x y) as [Hxy|Hxy].
  - intros _. destruct (N.ltb_spec y x); [lia | reflexivity].
  - destruct (N.ltb_spec y x) as [Hyx|Hyx]; [congruence|]. apply IH.
Qed.

(** One loop iteration is antisymmetric: the swapped operands return the
    opposite value, or fall through together. *)
Lemma compareParts_swap (a b : value) :
  compareParts b a = Z.opp <$> compareParts a b.
Proof.
  assert (Hstr : forall s t : jsstring,
    (if str_lt t s then Some (-1) else if str_lt s t then Some 1 else None)
    = Z.opp <$> (if str_lt s t then Some (-1)
                 else if str_lt t s then Some 1 else None)).
  { intros s t. destruct (str_lt s t) eqn:Hst.
    - rewrite (str_lt_asym _ _ Hst). reflexivity.
    - destruct (str_lt t s); reflexivity. }
  destruct a as [x|s], b as [y|t]; simpl; try apply Hstr.
  unfold num_gt. fold (num_lt x y). fold (num_lt y x).
  destruct (num_lt x y) eqn:Hxy.
  - rewrite (num_lt_asym _ _ Hxy). reflexivity.
  - destruct (num_lt y x); reflexivity.
Qed.

Lemma compareLoop_swap (steps : nat) :
  forall (i : nat) (cp lp : list value),
    compareLoop steps i lp cp = - compareLoop steps i cp lp.
Proof.
  induction steps as [|n IH]; intros i cp lp; simpl; [reflexivity|].
  rewrite (compareParts_swap (or_default (cp !! i) (VNum pos_zero))
                             (or_default (lp !! i) (VNum pos_zero))).
  destruct (compareParts _ _); simpl; [reflexivity | apply IH].
Qed.

(** C9. For every pair of version strings [a] and [b],
    [compareVersions(a, b) == -compareVersions(b, a)]; in particular
    [compareVersions(v, v) == 0] for every string [v]. *)
Theorem compareVersions_antisymmetric :
  (forall a b : jsstring, compareVersions a b = - compareVersions b a) /\
  (forall v : jsstring, compareVersions v v = 0).
Proof.
  assert (H : forall a b : jsstring, compareVersions a b = - compareVersions b a).
  { intros a b. unfold compareVersions.
    rewrite (Nat.max_comm (length (parseVersion a))).
    apply compareLoop_swap. }
  split; [exact H|].
  intros v. specialize (H v v). lia.
Qed.

End Comparator.

Section Tokens.

Lemma shr_1_nonneg (mrs : shr_record) : 0 <= shr_m mrs -> 0 <= shr_m (shr_1 mrs).
Proof.
  destruct mrs as [m r s]; simpl.
  destruct m as [|[p|p|]|p]; simpl; lia.
Qed.

Lemma iter_pos_shr_1_nonneg (p : positive) :
  forall mrs, 0 <= shr_m mrs -> 0 <= shr_m (SpecFloat.iter_pos shr_1 p mrs).
Proof.
  induction p as [p IH|p IH|]; intros mrs H; simpl.
  - apply IH, IH, shr_1_nonneg, H.
  - apply IH, IH, H.
  - apply shr_1_nonneg, H.
Qed.

Lemma shr_fexp_nonneg (m e : Z) (l : location) :
  0 <= m -> 0 <= shr_m (fst (shr_fexp prec emax m e l)).
Proof.
  intros H. unfold shr_fexp, shr.
  assert (Hm : shr_m (shr_record_of_loc m l) = m) by (destruct l as [|[]]; reflexivity).
  destruct (_ - e) as [|p|p]; simpl; rewrite <- Hm in H; try exact H.
  apply iter_pos_shr_1_nonneg, H.
Qed.

Lemma round_nearest_even_nonneg (m : Z) (l : location) :
  0 <= m -> 0 <= round_nearest_even m l.
Proof.
  intros H. destruct l as [|[]]; simpl; try lia.
  destruct (Z.even m); lia.
Qed.

(** Rounding a natural mantissa never yields NaN. *)
Lemma binary_round_aux_not_nan (sx : bool) (mx ex : Z) (lx : location) :
  0 <= mx -> isNaN (binary_round_aux prec emax sx mx ex lx) = false.
Proof.
  intros H. unfold binary_round_aux.
  pose proof (shr_fexp_nonneg mx ex lx H) as H1.
  destruct (shr_fexp prec emax mx ex lx) as [mrs' e']. simpl in H1.
  pose proof (shr_fexp_nonneg _ e' loc_Exact
                (round_nearest_even_nonneg _ (loc_of_shr_record mrs') H1)) as H2.
  destruct (shr_fexp prec emax _ e' loc_Exact) as [mrs'' e'']. simpl in H2.
  destruct (shr_m mrs'') as [|p|p]; [reflexivity| |lia].
  destruct (_ <=? _); reflexivity.
Qed.

Lemma of_Z_not_nan (z : Z) : isNaN (of_Z z) = false.
Proof.
  unfold of_Z, binary_normalize. destruct z as [|p|p]; [reflexivity| |];
    unfold binary_round; destruct (shl_align _ _ _) as [mz ez];
    apply binary_round_aux_not_nan; lia.
Qed.

Lemma is_radix_digit_10 (c : N) : is_radix_digit 10 c = is_decimal_digit c.
Proof.
  unfold is_radix_digit, digit_value, is_decimal_digit.
  destruct (((48 <=? c) && (c <=? 57))%N) eqn:H1.
  - apply andb_true_iff in H1 as [Ha Hb].
    apply N.leb_le in Ha, Hb. apply Z.ltb_lt. lia.
  - destruct (((97 <=? c) && (c <=? 122))%N) eqn:H2.
    + apply andb_true_iff in H2 as [Ha Hb].
      apply N.leb_le in Ha, Hb. apply Z.ltb_ge. lia.
    + destruct (((65 <=? c) && (c <=? 90))%N) eqn:H3; [|reflexivity].
      apply andb_true_iff in H3 as [Ha Hb].
      apply N.leb_le in Ha, Hb. apply Z.ltb_ge. lia.
Qed.

(** [parseInt] without a radix yields NaN exactly when there is no numeric
    prefix. *)
Lemma parseInt_NaN_iff (tok : jsstring) :
  isNaN (parseInt tok 0) = negb (has_numeric_prefix tok).
Proof.
  unfold parseInt, has_numeric_prefix.
  set (S0 := trim_start tok).
  set (negative := match S0 with c :: _ => N.eqb c 45 | [] => false end).
  set (S1 := match S0 with
             | c :: r => if N.eqb c 43 || N.eqb c 45 then r else S0
             | [] => []
             end).
  change (negb (0 =? 0) && ((0 <? 2) || (36 <? 0))) with false.
  change ((0 =? 0) || (0 =? 16)) with true.
  change (if 0 =? 0 then 10 else 0) with 10.
  cbv iota.
  assert (Hhead : forall R S2,
    match digit_prefix R S2 with [] => true | _ :: _ => false end
    = negb (match S2 with c :: _ => is_radix_digit R c | [] => false end)).
  { intros R [|c r]; simpl; [reflexivity|].
    destruct (is_radix_digit R c); reflexivity. }
  assert (Hres : forall R S2,
    isNaN (match digit_prefix R S2 with
           | [] => NaN
           | c :: r =>
               if digits_value R (c :: r) =? 0 then S754_zero negative
               else of_Z (if negative then - digits_value R (c :: r)
                          else digits_value R (c :: r))
           end)
    = negb (match S2 with c :: _ => is_radix_digit R c | [] => false end)).
  { intros R S2. rewrite <- Hhead.
    destruct (digit_prefix R S2); [reflexivity|].
    destruct (_ =? 0); [reflexivity | apply of_Z_not_nan]. }
  pose proof is_radix_digit_10 as Hdec.
  destruct S1 as [|c0 [|c1 r]]; cbv beta iota.
  - reflexivity.
  - rewrite (Hres 10 [c0]), Hdec. reflexivity.
  - change (true && N.eqb c0 48) with (N.eqb c0 48).
    destruct (N.eqb c0 48 && (N.eqb c1 120 || N.eqb c1 88)); cbv beta iota.
    + rewrite (Hres 16 r). destruct r; reflexivity.
    + rewrite (Hres 10 (c0 :: c1 :: r)), Hdec. reflexivity.
Qed.

(** C7, as amended.  [compareVersions] splits each version string on [.]
    and [-] into tokens, and a token becomes a number exactly when
    [parseInt] finds a numeric prefix in it (after leading white space and
    an optional sign: a decimal digit, or [0x]/[0X] followed by a
    hexadecimal digit); the number is the one [parseInt] reads from that
    prefix.  Every other token is kept as a string. *)
Theorem parseVersion_numeric_prefix (v : jsstring) :
  parseVersion v =
    List.map (fun tok => if has_numeric_prefix tok
                         then VNum (parseInt tok 0) else VStr tok)
             (split is_version_separator v)
  /\ (forall tok, is_number (parsePart tok) = has_numeric_prefix tok).
Proof.
  assert (H : forall tok, parsePart tok =
            if has_numeric_prefix tok then VNum (parseInt tok 0) else VStr tok).
  { intros tok. unfold parsePart. rewrite parseInt_NaN_iff.
    destruct (has_numeric_prefix tok); reflexivity. }
  split.
  - unfold parseVersion. apply map_ext. exact H.
  - intros tok. rewrite H. destruct (has_numeric_prefix tok); reflexivity.
Qed.

Lemma decimal_digit_range (c : N) :
  is_decimal_digit c = true -> (48 <= c <= 57)%N.
Proof.
  unfold is_decimal_digit. intros H. apply andb_true_iff in H as [Ha Hb].
  apply N.leb_le in Ha, Hb. lia.
Qed.

Lemma decimal_digit_not_white (c : N) :
  is_decimal_digit c = true -> is_white c = false.
Proof.
  intros H. apply decimal_digit_range in H.
  apply not_true_is_false. unfold is_white. intros Hex.
  apply existsb_exists in Hex as (x & Hin & Heq). apply N.eqb_eq in Heq.
  subst x. cbn in Hin. repeat (destruct Hin as [Hin|Hin]; [lia|]). exact Hin.
Qed.

Lemma digit_prefix_decimal (tok : jsstring) :
  forallb is_decimal_digit tok = true -> digit_prefix 10 tok = tok.
Proof.
  induction tok as [|c r IH]; [reflexivity|]. cbn [forallb digit_prefix].
  intros H. apply andb_true_iff in H as [Hc Hr].
  rewrite is_radix_digit_10, Hc. f_equal. by apply IH.
Qed.

(** The part of the claim that holds: a fully numeric token is the number
    it writes in decimal. *)
Lemma parsePart_fully_numeric (tok : jsstring) :
  fully_numeric tok = true ->
  parsePart tok = VNum (of_Z (digits_value 10 tok)).
Proof.
  destruct tok as [|c r]; [discriminate|]. unfold fully_numeric.
  intros Hall. pose proof (digit_prefix_decimal _ Hall) as Hprefix.
  cbn [forallb] in Hall. apply andb_true_iff in Hall as [Hc Hr].
  pose proof (decimal_digit_range c Hc) as Hrange.
  assert (Hparse : parseInt (c :: r) 0 = of_Z (digits_value 10 (c :: r))).
  { unfold parseInt. cbn [trim_start]. rewrite (decimal_digit_not_white c Hc).
    replace (N.eqb c 43) with false by (symmetry; apply N.eqb_neq; lia).
    replace (N.eqb c 45) with false by (symmetry; apply N.eqb_neq; lia).
    cbn [orb negb andb Z.eqb Z.ltb Z.compare].
    assert (Hfinish :
      match digit_prefix 10 (c :: r) with
      | [] => NaN
      | c' :: r' =>
          if digits_value 10 (c' :: r') =? 0 then S754_zero false
          else of_Z (digits_value 10 (c' :: r'))
      end = of_Z (digits_value 10 (c :: r))).
    { rewrite Hprefix.
      destruct (digits_value 10 (c :: r) =? 0) eqn:Hz; [|reflexivity].
      apply Z.eqb_eq in Hz. by rewrite Hz. }
    destruct r as [|c1 r0]; [exact Hfinish|].
    cbn [forallb] in Hr. apply andb_true_iff in Hr as [Hc1 _].
    apply decimal_digit_range in Hc1.
    replace (N.eqb c1 120) with false by (symmetry; apply N.eqb_neq; lia).
    replace (N.eqb c1 88) with false by (symmetry; apply N.eqb_neq; lia).
    rewrite andb_false_r. exact Hfinish. }
  unfold parsePart. rewrite Hparse, of_Z_not_nan. reflexivity.
Qed.

(** C7, counterexample.  The token ["2beta"] is not fully numeric, yet it
    is turned into the number 2: ["1.2beta"] against ["1.10"] is decided
    numerically (2 < 10), whereas the string ["2beta"] compared with 10
    would have been greater. *)
Lemma token_2beta_is_number :
  fully_numeric (js "2beta") = false /\
  parsePart (js "2beta") = VNum (of_Z 2) /\
  compareVersions (js "1.2beta") (js "1.10") = -1 /\
  compareParts (VStr (js "2beta")) (VNum (of_Z 10)) = Some 1.
Proof. repeat split; vm_compute; reflexivity. Qed.

End Tokens.

(* ===================================================================== *)
(** * Reasoning about async functions *)
(* ===================================================================== *)

Section Monad.

Lemma bind_run {A B} (m : M A) (f : A -> M B) (w : World) :
  (m ≫= f) w = match m w with
               | (Ok a, w') => f a w'
               | (Throw e, w') => (Throw e, w')
               end.
Proof. reflexivity. Qed.

Lemma bind_Ok_inv {A B} (m : M A) (f : A -> M B) (w w' : World) (b : B) :
  (m ≫= f) w = (Ok b, w') ->
  exists a w1, m w = (Ok a, w1) /\ f a w1 = (Ok b, w').
Proof.
  rewrite bind_run. destruct (m w) as [[a|e] w1]; [eauto | discriminate].
Qed.

(** A run whose outcome is known. *)
Lemma run_eq {A} (run : outcome A * World) (o : outcome A) :
  fst run = o -> run = (o, snd run).
Proof. intros <-. apply surjective_pairing. Qed.

End Monad.

(** ** What a computation adds to the trace *)

Section Emits.

Context (P : Action -> Prop).

Lemma emits_ret {A} (a : A) : emits P (mret a).
Proof. intros w r w' [= <- <-]. exists []. by rewrite app_nil_r. Qed.

Lemma emits_throw {A} (e : jsstring) : emits P (@throw A e).
Proof. intros w r w' [= <- <-]. exists []. by rewrite app_nil_r. Qed.

Lemma emits_bind {A B} (m : M A) (f : A -> M B) :
  emits P m -> (forall a, emits P (f a)) -> emits P (m ≫= f).
Proof.
  intros Hm Hf w r w'. rewrite bind_run.
  destruct (m w) as [[a|e] w1] eqn:Hrun; intros H.
  - destruct (Hm _ _ _ Hrun) as (d1 & E1 & F1).
    destruct (Hf a _ _ _ H) as (d2 & E2 & F2).
    exists (d1 ++ d2). rewrite E2, E1, app_assoc.
    split; [done | by apply Forall_app].
  - injection H as <- <-. eauto.
Qed.

Lemma emits_try_catch {A} (m : M A) (h : jsstring -> M A) :
  emits P m -> (forall e, emits P (h e)) -> emits P (try_catch m h).
Proof.
  intros Hm Hh w r w'. unfold try_catch.
  destruct (m w) as [[a|e] w1] eqn:Hrun; intros H.
  - injection H as <- <-. eauto.
  - destruct (Hm _ _ _ Hrun) as (d1 & E1 & F1).
    destruct (Hh e _ _ _ H) as (d2 & E2 & F2).
    exists (d1 ++ d2). rewrite E2, E1, app_assoc.
    split; [done | by apply Forall_app].
Qed.

Lemma emits_emit (e : Event) : P (Emit e) -> emits P (emit e).
Proof. intros H w r w' [= <- <-]. exists [Emit e]. eauto. Qed.

Lemma emits_get_fs : emits P get_fs.
Proof. intros w r w' [= <- <-]. exists []. by rewrite app_nil_r. Qed.

Lemma emits_put_fs (f : gmap Path Node) : emits P (put_fs f).
Proof. intros w r w' [= <- <-]. exists []. by rewrite app_nil_r. Qed.

Lemma emits_set_isUpdating (b : bool) : emits P (set_isUpdating b).
Proof. intros w r w' [= <- <-]. exists []. by rewrite app_nil_r. Qed.

Lemma emits_Date_now (E : Env) : emits P (Date_now E).
Proof. intros w r w' [= <- <-]. exists []. by rewrite app_nil_r. Qed.

Lemma emits_perform (E : Env) (op : IoOp) : P (Io op) -> emits P (perform E op).
Proof. intros H w r w' [= <- <-]. exists [Io op]. eauto. Qed.

End Emits.

Create HintDb emits discriminated.
#[local] Hint Resolve emits_ret emits_throw emits_emit emits_get_fs emits_put_fs
  emits_set_isUpdating emits_Date_now emits_perform : emits.

(** Breaks a computation into its calls; primitive calls are closed by the
    hints, destructured values by case analysis. *)
Ltac emits_step :=
  match goal with
  | |- emits _ (_ ≫= _) => apply emits_bind; [|intros]
  | |- emits _ (try_catch _ _) => apply emits_try_catch; [|intros]
  | |- emits _ (match ?x with _ => _ end) => destruct x
  | |- emits _ (if ?x then _ else _) => destruct x
  | |- emits _ _ => solve [eauto with emits]
  end.
Ltac emits_auto := repeat emits_step.

Section IoOnly.

Context (E : Env) (P : Action -> Prop) (HP : forall op, P (Io op)).

#[local] Hint Resolve HP : emits.

Lemma emits_io op : emits P (io E op).
Proof. unfold io. emits_auto. Qed.
#[local] Hint Resolve emits_io : emits.

Lemma emits_pathExists p : emits P (pathExists E p).
Proof. unfold pathExists. emits_auto. Qed.

Lemma emits_ensureDir p : emits P (ensureDir E p).
Proof. unfold ensureDir. emits_auto. Qed.

Lemma emits_copy src dst : emits P (copy E src dst).
Proof. unfold copy. emits_auto. Qed.

Lemma emits_remove p : emits P (remove E p).
Proof. unfold remove. emits_auto. Qed.

Lemma emits_move src dst : emits P (move E src dst).
Proof. unfold move. emits_auto. Qed.

Lemma emits_readdir p : emits P (readdir E p).
Proof. unfold readdir. emits_auto. Qed.

Lemma emits_stat_mtime p : emits P (stat_mtime E p).
Proof. unfold stat_mtime. emits_auto. Qed.

Lemma emits_readJson p : emits P (readJson E p).
Proof. unfold readJson. emits_auto. Qed.

Lemma emits_writeJson p r : emits P (writeJson E p r).
Proof. unfold writeJson. emits_auto. Qed.

Lemma emits_openWrite p : emits P (openWrite E p).
Proof. unfold openWrite. emits_auto. Qed.

Lemma emits_writeChunk p c : emits P (writeChunk E p c).
Proof. unfold writeChunk. emits_auto. Qed.

#[local] Hint Resolve emits_pathExists emits_ensureDir emits_copy emits_remove
  emits_move emits_readdir emits_stat_mtime emits_readJson emits_writeJson
  emits_openWrite emits_writeChunk : emits.

Lemma emits_loadModRegistry pid : emits P (loadModRegistry E pid).
Proof. unfold loadModRegistry. emits_auto. Qed.
#[local] Hint Resolve emits_loadModRegistry : emits.

Lemma emits_updateModRegistry pid old info : emits P (updateModRegistry E pid old info).
Proof. unfold updateModRegistry. emits_auto. Qed.

Lemma emits_createBackup m profile : emits P (createBackup E m profile).
Proof. unfold createBackup. emits_auto. Qed.

Lemma emits_restoreFromBackup m profile : emits P (restoreFromBackup E m profile).
Proof. unfold restoreFromBackup. emits_auto. Qed.

Lemma emits_axios_get url : emits P (axios_get E url).
Proof.
  intros w r w' H. unfold axios_get in H.
  revert H. generalize (http_get E (tick w) url). intros resp. revert w r w'.
  change (emits P (io E (HttpGet url) ≫= fun _ => mret resp)). emits_auto.
Qed.

Lemma emits_pump dest onProgress total data :
  (forall x, emits P (onProgress x)) ->
  forall downloaded, emits P (pump E dest onProgress total downloaded data).
Proof.
  intros Hcb. induction data as [|chunk rest IH]; intros downloaded; simpl.
  - emits_auto.
  - apply emits_bind; [apply Hcb | intros _].
    apply emits_bind; [eauto with emits | intros _]. apply IH.
Qed.

Lemma emits_downloadWithProgress url dest onProgress :
  (forall x, emits P (onProgress x)) ->
  emits P (downloadWithProgress E url dest onProgress).
Proof.
  intros Hcb. unfold downloadWithProgress.
  apply emits_bind; [apply emits_axios_get | intros resp].
  apply emits_bind; [eauto with emits | intros _].
  apply emits_bind; [eauto with emits | intros _].
  by apply emits_pump.
Qed.

End IoOnly.

(* ===================================================================== *)
(** * UpdateExecutor: [updateMod] *)
(* ===================================================================== *)

Section EndsWith.

Context (ev : Event) (P : Action -> Prop).

Lemma ends_with_throw {A} (e : jsstring) : ends_with ev P (@throw A e).
Proof. intros w r w' [= <- <-]. exists []. by rewrite !app_nil_r. Qed.

Lemma ends_with_emit {A} (a : A) : ends_with ev P (emit ev ≫= fun _ => mret a).
Proof. intros w r w' [= <- <-]. exists []. done. Qed.

Lemma ends_with_bind {A B} (m : M A) (f : A -> M B) :
  emits P m -> (forall a, ends_with ev P (f a)) -> ends_with ev P (m ≫= f).
Proof.
  intros Hm Hf w r w'. rewrite bind_run.
  destruct (m w) as [[a|e] w1] eqn:Hrun; intros H.
  - destruct (Hm _ _ _ Hrun) as (d1 & E1 & F1).
    destruct (Hf a _ _ _ H) as (d2 & F2 & E2).
    exists (d1 ++ d2). split; [by apply Forall_app|].
    by rewrite E2, E1, <- !app_assoc.
  - injection H as <- <-. destruct (Hm _ _ _ Hrun) as (d1 & E1 & F1).
    exists d1. by rewrite app_nil_r.
Qed.

End EndsWith.

Section UpdateMod.

Context (E : Env).

Lemma not_terminal_io (op : IoOp) : not_terminal (Io op).
Proof. reflexivity. Qed.

Lemma is_io_io (op : IoOp) : is_io (Io op).
Proof. exact I. Qed.

(** The [try] block emits [updateCompleted] last when it returns, and never
    otherwise; it never emits [updateFailed]. *)
Lemma updateMod_try_ends_with (m : Mod.t) (latest : Catalog.Version)
    (profile : Profile.t) :
  ends_with (updateCompleted (Mod.name m) (Mod.currentVersion m)
                             (Catalog.version_number latest))
            not_terminal (updateMod_try E m latest profile).
Proof.
  pose proof not_terminal_io as Hio.
  unfold updateMod_try.
  apply ends_with_bind; [by apply emits_createBackup | intros _].
  destruct (pickDownloadFile _) as [downloadFile|]; [|apply ends_with_throw].
  apply ends_with_bind.
  { apply emits_downloadWithProgress; [done|].
    intros x. by apply emits_emit. }
  intros _. apply ends_with_bind; [by apply emits_pathExists | intros found].
  apply ends_with_bind.
  { destruct found; [by apply emits_remove | apply emits_ret]. }
  intros _. apply ends_with_bind; [by apply emits_move | intros _].
  apply ends_with_bind; [apply emits_Date_now | intros now].
  apply ends_with_bind; [by apply emits_updateModRegistry | intros _].
  apply ends_with_emit.
Qed.

(** What [updateMod] does once the precondition holds. *)
Lemma updateMod_run (report : UpdateInfo.t) (latest : Catalog.Version)
    (profile : Profile.t) (w : World) :
  UpdateInfo.latestVersion report = Some latest ->
  let m := UpdateInfo.installed report in
  let w0 := snd (emit (updateStarted (Mod.name m)) w) in
  updateMod E report profile w =
    match updateMod_try E m latest profile w0 with
    | (Ok result, w1) => (Ok result, w1)
    | (Throw e, w1) =>
        match restoreFromBackup E m profile
                (snd (emit (updateFailed (Mod.name m) e) w1)) with
        | (Ok _, w2) => (Throw e, w2)
        | (Throw e', w2) => (Throw e', w2)
        end
    end.
Proof.
  intros Hl m w0. unfold updateMod. rewrite Hl. fold m.
  rewrite bind_run. subst w0. unfold try_catch, emit at 1 2. cbn [snd].
  destruct (updateMod_try E m latest profile _) as [[result|e] w1]; [done|].
  unfold updateMod_catch. rewrite bind_run. unfold emit. cbn [snd].
  rewrite bind_run.
  destruct (restoreFromBackup E m profile _) as [[[]|e'] w2]; reflexivity.
Qed.

(** C6.  Called with a report whose [latestVersion] is null, [updateMod]
    fails at once with "No update available" and leaves the world as it
    found it: no event, no backup, no file or registry change. *)
Theorem updateMod_without_latestVersion (report : UpdateInfo.t)
    (profile : Profile.t) (w : World) :
  UpdateInfo.latestVersion report = None ->
  updateMod E report profile w = (Throw (js "No update available"), w).
Proof. intros H. unfold updateMod. by rewrite H. Qed.

(** C1 (what the code does).  When the [try] block fails with [e] and the
    rollback then fails with [e'], the caller receives [e'], the rollback
    error, in place of the original one; only in the [updateFailed] event,
    emitted before the rollback, does [e] remain visible. *)
Theorem updateMod_rollback_error_replaces_original (report : UpdateInfo.t)
    (latest : Catalog.Version) (profile : Profile.t) (w w1 w2 : World)
    (e e' : jsstring) :
  let m := UpdateInfo.installed report in
  UpdateInfo.latestVersion report = Some latest ->
  updateMod_try E m latest profile (snd (emit (updateStarted (Mod.name m)) w))
    = (Throw e, w1) ->
  restoreFromBackup E m profile (snd (emit (updateFailed (Mod.name m) e) w1))
    = (Throw e', w2) ->
  updateMod E report profile w = (Throw e', w2).
Proof.
  intros m Hl Htry Hrestore.
  rewrite (updateMod_run report latest profile w Hl). fold m.
  by rewrite Htry, Hrestore.
Qed.

(** When the rollback itself succeeds, the original error is the one that
    reaches the caller. *)
Lemma updateMod_original_error_after_rollback (report : UpdateInfo.t)
    (latest : Catalog.Version) (profile : Profile.t) (w w1 w2 : World)
    (e : jsstring) :
  let m := UpdateInfo.installed report in
  UpdateInfo.latestVersion report = Some latest ->
  updateMod_try E m latest profile (snd (emit (updateStarted (Mod.name m)) w))
    = (Throw e, w1) ->
  restoreFromBackup E m profile (snd (emit (updateFailed (Mod.name m) e) w1))
    = (Ok tt, w2) ->
  updateMod E report profile w = (Throw e, w2).
Proof.
  intros m Hl Htry Hrestore.
  rewrite (updateMod_run report latest profile w Hl). fold m.
  by rewrite Htry, Hrestore.
Qed.

Lemma filter_not_terminal (l : list Action) :
  Forall not_terminal l -> List.filter is_terminal l = [].
Proof.
  induction 1 as [|a l Ha _ IH]; [reflexivity|].
  cbn [List.filter]. unfold not_terminal in Ha. by rewrite Ha.
Qed.

Lemma is_io_not_terminal (l : list Action) :
  Forall is_io l -> Forall not_terminal l.
Proof. intros H. eapply Forall_impl; [exact H|]. by intros [e|op]. Qed.

(** Among [pre ++ [Emit ev] ++ post], only [ev] closes the update. *)
Lemma one_terminal_event (pre post : list Action) (ev : Event) :
  is_terminal (Emit ev) = true ->
  Forall not_terminal pre -> Forall is_io post ->
  List.filter is_terminal (pre ++ [Emit ev] ++ post) = [Emit ev].
Proof.
  intros Hev Hpre Hpost. rewrite !List.filter_app.
  rewrite (filter_not_terminal pre Hpre).
  rewrite (filter_not_terminal post (is_io_not_terminal post Hpost)).
  cbn [List.filter app]. by rewrite Hev.
Qed.


End UpdateMod.

Section UpdateModExamples.

Import Example.

(** C6, at a concrete report. *)
Lemma updateMod_without_latestVersion_example :
  UpdateInfo.latestVersion up_to_date = None /\
  updateMod (env healthy) up_to_date profile world
    = (Throw (js "No update available"), world).
Proof.
  split; [reflexivity|].
  apply (updateMod_without_latestVersion (env healthy) up_to_date profile world).
  reflexivity.
Defined.

End UpdateModExamples.

(* ===================================================================== *)
(** * The commit step: [updateModRegistry] *)
(* ===================================================================== *)

Section Commit.

Context (E : Env).

(** A successful [updateModRegistry] rewrites the registry file: the object
    it read (or the empty one) without the old key when the name changed,
    and with the new key bound to the new entry. *)
Lemma updateModRegistry_Ok (profileId oldFileName : jsstring)
    (modInfo : ModInfo.t) (w w' : World) :
  updateModRegistry E profileId oldFileName modInfo w = (Ok tt, w') ->
  exists (registry0 : gmap jsstring ModInfo.t) (t : Z),
    fs w' = <[registryPath E profileId :=
                File (RegistryJson
                        (<[ModInfo.fileName modInfo := modInfo]>
                           (if bool_decide (oldFileName ≠ ModInfo.fileName modInfo)
                            then delete oldFileName registry0 else registry0)))
                     t]> (fs w).
Proof.
  unfold updateModRegistry. intros H.
  apply bind_Ok_inv in H as (registry0 & w1 & Hload & Hwrite).
  assert (Hfs1 : fs w1 = fs w).
  { unfold loadModRegistry in Hload.
    apply bind_Ok_inv in Hload as (found & w0 & Hex & Hread).
    assert (fs w0 = fs w) as Hfs0.
    { unfold pathExists in Hex. cbv [mbind M_bind bind perform get_fs mret M_ret ret] in Hex.
      by injection Hex as _ <-. }
    destruct found.
    - unfold readJson in Hread.
      cbv [mbind M_bind bind io perform get_fs mret M_ret ret throw] in Hread.
      rewrite <- Hfs0. repeat case_match; simplify_eq; done.
    - injection Hread as _ <-. done. }
  exists registry0, (date_now E (S (tick w1))).
  unfold writeJson in Hwrite.
  cbv [mbind M_bind bind io perform get_fs put_fs Date_now mret M_ret ret throw]
    in Hwrite.
  rewrite <- Hfs1. repeat case_match; simplify_eq; done.
Qed.


End Commit.

Section UpdateModRuns.

Import Example.


(** C1, the failing run: the download fails with "Network Error", the copy
    that restores the backup fails with "EACCES: permission denied", and
    the latter is what [updateMod] throws. *)
Lemma updateMod_rollback_error_replaces_original_example :
  let E := env rollback_fails in
  let w0 := snd (emit (updateStarted (Mod.name installed)) world) in
  let w1 := snd (updateMod_try E installed latest profile w0) in
  let w2 := snd (restoreFromBackup E installed profile
                   (snd (emit (updateFailed (Mod.name installed)
                                 (js "Network Error")) w1))) in
  updateMod_try E installed latest profile w0 = (Throw (js "Network Error"), w1) /\
  updateMod E report profile world
    = (Throw (js "EACCES: permission denied"), w2).
Proof.
  intros E w0 w1 w2.
  assert (Htry : fst (updateMod_try E installed latest profile w0)
                 = Throw (js "Network Error"))
    by (vm_compute; reflexivity).
  assert (Hrestore :
            fst (restoreFromBackup E installed profile
                   (snd (emit (updateFailed (Mod.name installed)
                                 (js "Network Error")) w1)))
            = Throw (js "EACCES: permission denied"))
    by (vm_compute; reflexivity).
  split; [exact (run_eq _ _ Htry)|].
  exact (updateMod_rollback_error_replaces_original E report latest profile
           world w1 w2 (js "Network Error") (js "EACCES: permission denied")
           eq_refl (run_eq _ _ Htry) (run_eq _ _ Hrestore)).
Defined.



End UpdateModRuns.

(* ===================================================================== *)
(** * BatchCoordinator: [updateMultipleMods] *)
(* ===================================================================== *)

Section Batch.

Context (E : Env) (profile : Profile.t).

(** One iteration: the progress event, the update, the entry pushed. *)
Lemma batchLoop_step (total i : nat) (report : UpdateInfo.t)
    (rest : list UpdateInfo.t) (acc : list BatchResult) (w : World) :
  let name := Mod.name (UpdateInfo.installed report) in
  let w1 := snd (emit (batchUpdateProgress (i + 1) total name) w) in
  batchLoop E total i (report :: rest) profile acc w =
    batchLoop E total (S i) rest profile
      (acc ++ [batchEntry E report profile w1])
      (snd (updateMod E report profile w1)).
Proof.
  intros name w1. cbn [batchLoop]. rewrite bind_run. unfold try_catch.
  rewrite bind_run. unfold emit at 1. subst w1. unfold emit. cbn [snd].
  rewrite bind_run. unfold batchEntry. fold name.
  destruct (updateMod E report profile _) as [[result|e] w2]; reflexivity.
Qed.

(** The world the loop reaches does not depend on the entries collected. *)
Lemma batchLoop_world (mods : list UpdateInfo.t) :
  forall (total i : nat) (acc acc' : list BatchResult) (w : World),
    snd (batchLoop E total i mods profile acc w)
    = snd (batchLoop E total i mods profile acc' w).
Proof.
  induction mods as [|report rest IH]; intros total i acc acc' w.
  - reflexivity.
  - rewrite !batchLoop_step. apply IH.
Qed.

(** The loop never throws; it pushes one entry per report, in order, each
    computed in the world left by the reports before it. *)
Lemma batchLoop_spec (mods : list UpdateInfo.t) :
  forall (total i0 : nat) (acc : list BatchResult) (w : World),
    batchLoop E total i0 mods profile acc w =
      (Ok (acc ++ imap
             (fun j report =>
                batchEntry E report profile
                  (snd (emit (batchUpdateProgress (i0 + j + 1) total
                                (Mod.name (UpdateInfo.installed report)))
                          (snd (batchLoop E total i0 (take j mods) profile [] w)))))
             mods),
       snd (batchLoop E total i0 mods profile [] w)).
Proof.
  induction mods as [|report rest IH]; intros total i0 acc w.
  - cbn. by rewrite app_nil_r.
  - rewrite batchLoop_step, IH. cbn [imap take].
    rewrite Nat.add_0_r, <- app_assoc. cbn [app]. f_equal.
    + do 3 f_equal.
      apply imap_ext. intros j r _. cbn [compose take].
      rewrite batchLoop_step.
      replace (i0 + S j + 1)%nat with (S i0 + j + 1)%nat by lia.
      by rewrite (batchLoop_world (take j rest) total (S i0) ([] ++ [_]) []).
    + rewrite (batchLoop_step total i0 report rest [] w). apply batchLoop_world.
Qed.


End Batch.

(* ===================================================================== *)
(** * UpdateChecker: [checkForUpdates] *)
(* ===================================================================== *)

Section Checker.

Context (E : Env) (profile : Profile.t).

(** The loop body never throws: whatever fails inside it is turned into the
    error report of the mod. *)
Lemma checkMod_returns (m : Mod.t) (i total : nat) (w : World) :
  checkMod E profile m i total w
  = (Ok (checkReport E profile m i total w),
     snd (checkMod E profile m i total w))
  /\ UpdateInfo.installed (checkReport E profile m i total w) = m.
Proof.
  unfold checkReport, checkMod, try_catch.
  rewrite !bind_run. unfold emit. rewrite !bind_run.
  destruct (api_latest E _ _ _ _) as [[[latest|]|e] w2]; cbn; [| done | done].
  destruct (Mod.currentVersion m) as [current|]; cbn; [|done].
  destruct (_ <? 0); done.
Qed.

(** A catalog failure becomes the error of the report. *)
Lemma checkMod_catalog_failure (m : Mod.t) (i total : nat) (w : World)
    (message : jsstring) :
  io_fault E (tick w) = Some message ->
  checkReport E profile m i total w = errorReport m message.
Proof.
  intros H. unfold checkReport, checkMod, try_catch.
  rewrite bind_run. unfold emit. rewrite bind_run.
  unfold api_latest. rewrite bind_run. unfold io. rewrite bind_run.
  unfold perform. cbn [tick]. by rewrite H.
Qed.

(** What the code reports as the size of an update: the size of the first
    file of the candidate. *)
Lemma checkMod_update_size (m : Mod.t) (i total : nat) (w : World) :
  UpdateInfo.hasUpdate (checkReport E profile m i total w) = true ->
  exists latest,
    UpdateInfo.latestVersion (checkReport E profile m i total w) = Some latest /\
    UpdateInfo.updateSize (checkReport E profile m i total w)
      = Some (first_file_size latest).
Proof.
  unfold checkReport, checkMod, try_catch.
  rewrite bind_run. unfold emit. rewrite bind_run.
  destruct (api_latest E _ _ _ _) as [[[latest|]|e] w2]; cbn; try done.
  destruct (Mod.currentVersion m) as [current|]; cbn; [|done].
  destruct (_ <? 0); cbn; [|done]. intros _. by exists latest.
Qed.

Lemma checkLoop_step (total i : nat) (m : Mod.t) (rest : list Mod.t)
    (acc : list UpdateInfo.t) (w : World) :
  checkLoop E profile total i (m :: rest) acc w =
    checkLoop E profile total (S i) rest
      (acc ++ [checkReport E profile m i total w])
      (snd (checkMod E profile m i total w)).
Proof.
  cbn [checkLoop]. rewrite bind_run.
  by rewrite (proj1 (checkMod_returns m i total w)).
Qed.

Lemma checkLoop_world (mods : list Mod.t) :
  forall (total i : nat) (acc acc' : list UpdateInfo.t) (w : World),
    snd (checkLoop E profile total i mods acc w)
    = snd (checkLoop E profile total i mods acc' w).
Proof.
  induction mods as [|m rest IH]; intros total i acc acc' w.
  - reflexivity.
  - rewrite !checkLoop_step. apply IH.
Qed.

Lemma checkLoop_spec (mods : list Mod.t) :
  forall (total i0 : nat) (acc : list UpdateInfo.t) (w : World),
    checkLoop E profile total i0 mods acc w =
      (Ok (acc ++ imap
             (fun j m =>
                checkReport E profile m (i0 + j) total
                  (snd (checkLoop E profile total i0 (take j mods) [] w)))
             mods),
       snd (checkLoop E profile total i0 mods [] w)).
Proof.
  induction mods as [|m rest IH]; intros total i0 acc w.
  - cbn. by rewrite app_nil_r.
  - rewrite checkLoop_step, IH. cbn [imap take].
    rewrite Nat.add_0_r, <- app_assoc. cbn [app]. f_equal.
    + do 3 f_equal.
      apply imap_ext. intros j r _. cbn [compose take].
      rewrite checkLoop_step.
      replace (i0 + S j)%nat with (S i0 + j)%nat by lia.
      by rewrite (checkLoop_world (take j rest) total (S i0) ([] ++ [_]) []).
    + rewrite (checkLoop_step total i0 m rest [] w). apply checkLoop_world.
Qed.

End Checker.

Section CheckForUpdates.

Context (E : Env).

Lemma map_installed_imap (mods : list Mod.t) :
  forall f : nat -> Mod.t -> UpdateInfo.t,
    (forall i m, UpdateInfo.installed (f i m) = m) ->
    List.map UpdateInfo.installed (imap f mods) = mods.
Proof.
  induction mods as [|m rest IH]; intros f Hf; [reflexivity|].
  cbn [imap List.map]. rewrite Hf. f_equal. apply IH. intros i m'. apply Hf.
Qed.

(** C5.  Once the installed tracked mods are listed, [checkForUpdates]
    returns exactly one report per mod, in order: the report of the loop
    body run on that mod after the mods before it.  A catalog call that
    fails with [message] yields the report [{...mod, hasUpdate: false,
    error: message}], and the loop goes on with the next mod. *)
Theorem checkForUpdates_one_report_per_mod (profileId : jsstring)
    (profile : Profile.t) (mods : list Mod.t) (w w1 : World) :
  getProfile E profileId = Some profile ->
  getInstalledMods E profile w = (Ok mods, w1) ->
  exists reports w',
    checkForUpdates E profileId w = (Ok reports, w') /\
    List.map UpdateInfo.installed reports = mods /\
    reports =
      imap (fun i m =>
              checkReport E profile m i (length mods)
                (snd (checkLoop E profile (length mods) 0 (take i mods) []
                        (snd (emit (updateCheckStarted profileId (length mods))
                                w1)))))
           mods /\
    (forall m i total w0 message,
        io_fault E (tick w0) = Some message ->
        checkReport E profile m i total w0 = errorReport m message /\
        UpdateInfo.hasUpdate (checkReport E profile m i total w0) = false /\
        UpdateInfo.error (checkReport E profile m i total w0) = Some message).
Proof.
  intros Hp Hmods. unfold checkForUpdates. rewrite Hp, bind_run, Hmods.
  rewrite bind_run. unfold emit at 1. rewrite bind_run, checkLoop_spec.
  cbn [app]. eexists _, _. split; [reflexivity|]. split; [|split].
  - apply map_installed_imap. intros i m.
    apply (checkMod_returns E profile).
  - reflexivity.
  - intros m i total w0 message H.
    rewrite (checkMod_catalog_failure E profile m i total w0 message H). done.
Qed.

(** Looking for a path that is not on the disk answers [false], whatever
    the environment does to the call. *)
Lemma pathExists_absent (p : Path) (w : World) :
  fs w !! p = None ->
  pathExists E p w
  = (Ok false, {| fs := fs w; trace := trace w ++ [Io (PathExists p)];
                  tick := S (tick w); isUpdating := isUpdating w |}).
Proof.
  intros H. cbv [pathExists mbind M_bind bind perform get_fs mret M_ret ret].
  cbn [fs]. rewrite H. destruct (io_fault E (tick w)); [done|].
  rewrite bool_decide_eq_false_2; [done|]. by intros [? ?].
Qed.

(** C10.  When the mods directory of the profile does not exist,
    [checkForUpdates] returns the empty sequence; all it does is to look
    for the directory and to emit [updateCheckStarted] with a mod count of
    0 and [updateCheckCompleted] with no result and zero updates. *)
Theorem checkForUpdates_without_mods_directory (profileId : jsstring)
    (profile : Profile.t) (w : World) :
  getProfile E profileId = Some profile ->
  fs w !! Profile.modsPath profile = None ->
  exists w',
    checkForUpdates E profileId w = (Ok [], w') /\
    trace w' = trace w ++
      [ Io (PathExists (Profile.modsPath profile));
        Emit (updateCheckStarted profileId 0);
        Emit (updateCheckCompleted profileId [] 0) ] /\
    fs w' = fs w.
Proof.
  intros Hp Hdir. unfold checkForUpdates, getInstalledMods. rewrite Hp.
  rewrite !bind_run, (pathExists_absent _ _ Hdir). cbn.
  eexists. split; [reflexivity|]. cbn. by rewrite <- !app_assoc.
Qed.

End CheckForUpdates.

(* ===================================================================== *)
(** * Runs on the concrete installation *)
(* ===================================================================== *)

Section Runs.

Import Example.

(** The comparisons listed among the testable properties. *)
Example compareVersions_numeric_segments :
  compareVersions (js "1.2.0") (js "1.10.0") = -1.
Proof. vm_compute. reflexivity. Qed.

Example compareVersions_missing_segment :
  compareVersions (js "1.0") (js "1.0.0") = 0.
Proof. vm_compute. reflexivity. Qed.

Example compareVersions_lexical_fallback :
  compareVersions (js "1.0-beta") (js "1.0-alpha") = 1.
Proof. vm_compute. reflexivity. Qed.


Example updateMultipleMods_continues_after_failure :
  fst (updateMultipleMods (env healthy) [up_to_date; report] profile world)
  = Ok [ BatchFailure (js "Sodium") (js "No update available");
         BatchSuccess (js "Sodium")
           {| UpdateResult.oldFile := js "sodium-0.5.0.jar";
              UpdateResult.newFile := js "sodium-0.5.3.jar";
              UpdateResult.newVersion := js "0.5.3" |} ].
Proof. vm_compute. reflexivity. Qed.

(** C5, on the three tracked mods, the catalog failing for the second. *)
Lemma checkForUpdates_one_report_per_mod_example :
  let E := env catalog_fails_once in
  let listing := getInstalledMods E profile world in
  let mods := match fst listing with Ok l => l | Throw _ => [] end in
  length mods = 3%nat /\
  exists reports w',
    checkForUpdates E (js "p1") world = (Ok reports, w') /\
    List.map UpdateInfo.installed reports = mods.
Proof.
  intros E listing mods.
  assert (Hlist : fst listing = Ok mods) by (vm_compute; reflexivity).
  split; [vm_compute; reflexivity|].
  destruct (checkForUpdates_one_report_per_mod E (js "p1") profile mods world
              (snd listing) eq_refl (run_eq listing (Ok mods) Hlist))
    as (reports & w' & Hrun & Hmods & _).
  exists reports, w'. split; [exact Hrun | exact Hmods].
Defined.

Example checkForUpdates_records_catalog_failure :
  match fst (checkForUpdates (env catalog_fails_once) (js "p1") world) with
  | Ok reports =>
      List.map (fun r => (Mod.name (UpdateInfo.installed r),
                          UpdateInfo.hasUpdate r, UpdateInfo.error r)) reports
  | Throw _ => []
  end
  = [ (js "Lithium", false, None);
      (js "Iris", false, Some (js "Failed to get latest version: timeout"));
      (js "Sodium", true, None) ].
Proof. vm_compute. reflexivity. Qed.

(** C8 (what the code does).  The candidate lists a sources archive of 10
    bytes first and the primary jar of 4 bytes second: the report of the
    checker says 10, the size of the first file, while the file that
    [updateMod] downloads is the primary one. *)
Theorem updateSize_is_first_file_size :
  let r := checkReport (env healthy) profile installed 0 1 world in
  UpdateInfo.hasUpdate r = true /\
  UpdateInfo.latestVersion r = Some latest /\
  UpdateInfo.updateSize r = Some 10 /\
  head (Catalog.files latest) = Some sources /\
  Catalog.primary sources = false /\
  pickDownloadFile (Catalog.files latest) = Some jar /\
  Catalog.primary jar = true /\
  Catalog.size jar = Some 4.
Proof. vm_compute. repeat split. Qed.

(** C10, before the mods folder is created. *)
Lemma checkForUpdates_without_mods_directory_example :
  fs fresh_world !! Profile.modsPath profile = None /\
  exists w',
    checkForUpdates (env healthy) (js "p1") fresh_world = (Ok [], w') /\
    trace w' = trace fresh_world ++
      [ Io (PathExists (Profile.modsPath profile));
        Emit (updateCheckStarted (js "p1") 0);
        Emit (updateCheckCompleted (js "p1") [] 0) ] /\
    fs w' = fs fresh_world.
Proof.
  assert (H : fs fresh_world !! Profile.modsPath profile = None)
    by (vm_compute; reflexivity).
  split; [exact H|].
  exact (checkForUpdates_without_mods_directory (env healthy) (js "p1")
           profile fresh_world eq_refl H).
Defined.

End Runs.

(* ===================================================================== *)
(** * More on the version comparator *)
(* ===================================================================== *)

Section ComparatorShape.

Lemma compareParts_sign (a b : value) (r : Z) :
  compareParts a b = Some r -> r = -1 \/ r = 1.
Proof.
  assert (Hstr : forall s t : jsstring,
    (if str_lt s t then Some (-1) else if str_lt t s then Some 1 else None)
    = Some r -> r = -1 \/ r = 1).
  { intros s t. destruct (str_lt s t); [intros [= <-]; auto|].
    destruct (str_lt t s); [intros [= <-]; auto | discriminate]. }
  destruct a as [x|s], b as [y|t]; cbn [compareParts]; try apply Hstr.
  destruct (num_lt x y); [intros [= <-]; auto|].
  destruct (num_gt x y); [intros [= <-]; auto | discriminate].
Qed.

Lemma compareLoop_sign (steps : nat) :
  forall (i : nat) (cp lp : list value),
    compareLoop steps i cp lp = -1 \/ compareLoop steps i cp lp = 0 \/
    compareLoop steps i cp lp = 1.
Proof.
  induction steps as [|n IH]; intros i cp lp; cbn [compareLoop]; [auto|].
  destruct (compareParts _ _) as [r|] eqn:Hr; [|apply IH].
  apply compareParts_sign in Hr as [-> | ->]; auto.
Qed.

(** X1.  [compareVersions] returns -1, 0 or 1, whatever the two strings. *)
Theorem compareVersions_sign (a b : jsstring) :
  compareVersions a b = -1 \/ compareVersions a b = 0 \/ compareVersions a b = 1.
Proof. apply compareLoop_sign. Qed.

Lemma num_lt_irrefl (x : number) : num_lt x x = false.
Proof.
  destruct (num_lt x x) eqn:H; [|reflexivity].
  pose proof (num_lt_asym x x H). congruence.
Qed.

Lemma str_lt_irrefl (s : jsstring) : str_lt s s = false.
Proof.
  destruct (str_lt s s) eqn:H; [|reflexivity].
  pose proof (str_lt_asym s s H). congruence.
Qed.

(** A value never differs from itself. *)
Lemma compareParts_same (v : value) : compareParts v v = None.
Proof.
  destruct v as [x|s]; cbn [compareParts].
  - unfold num_gt. fold (num_lt x x). by rewrite num_lt_irrefl.
  - cbn [to_string]. by rewrite str_lt_irrefl.
Qed.

(** Two token sequences that read the same at every index compare equal. *)
Lemma compareLoop_same (cp lp : list value) :
  (forall j, or_default (cp !! j) (VNum pos_zero)
             = or_default (lp !! j) (VNum pos_zero)) ->
  forall steps i, compareLoop steps i cp lp = 0.
Proof.
  intros Hsame steps. induction steps as [|n IH]; intros i; [reflexivity|].
  cbn [compareLoop]. rewrite Hsame, compareParts_same. apply IH.
Qed.

Lemma split_not_nil (is_sep : N -> bool) (s : jsstring) : split is_sep s <> [].
Proof.
  destruct s as [|c r]; cbn [split]; [done|].
  destruct (is_sep c); [done|]. by destruct (split is_sep r).
Qed.

(** Splitting at a separator splits the token sequence. *)
Lemma split_app (is_sep : N -> bool) (sep : N) (s t : jsstring) :
  is_sep sep = true ->
  split is_sep (s ++ sep :: t) = split is_sep s ++ split is_sep t.
Proof.
  intros Hsep. induction s as [|c r IH]; cbn [split app].
  - by rewrite Hsep.
  - rewrite IH. destruct (is_sep c); [done|].
    pose proof (split_not_nil is_sep r). by destruct (split is_sep r).
Qed.

(** A falsy last token reads as the 0 that stands for a missing token. *)
Lemma or_default_snoc (cp : list value) (x : value) (j : nat) :
  truthy (Some x) = false ->
  or_default (cp !! j) (VNum pos_zero)
  = or_default ((cp ++ [x]) !! j) (VNum pos_zero).
Proof.
  intros Hx. destruct (decide (j < length cp)%nat) as [Hlt|Hge].
  - by rewrite lookup_app_l.
  - rewrite lookup_ge_None_2 by lia. rewrite lookup_app_r by lia.
    destruct (j - length cp)%nat as [|k]; [|reflexivity].
    change (or_default None (VNum pos_zero)
            = or_default (Some x) (VNum pos_zero)).
    unfold or_default. by rewrite Hx.
Qed.

(** X2.  A trailing separator, or a trailing segment [0], does not change
    a version: [v] compares equal to [v.], [v-], [v.0] and [v-0]. *)
Theorem compareVersions_trailing_zero (v : jsstring) (sep : N) :
  is_version_separator sep = true ->
  compareVersions v (v ++ [sep]) = 0 /\
  compareVersions v (v ++ [sep; 48%N]) = 0.
Proof.
  intros Hsep. unfold compareVersions, parseVersion.
  rewrite !(split_app is_version_separator sep v _ Hsep), !map_app.
  split; apply compareLoop_same; intros j; by apply or_default_snoc.
Qed.

Lemma split_dotted (v : jsstring) :
  split is_version_separator (dotted v) = split is_version_separator v.
Proof.
  induction v as [|c r IH]; [reflexivity|]. cbn [dotted List.map split].
  fold (dotted r). rewrite IH.
  destruct (is_version_separator c) eqn:Hc; [reflexivity|]. by rewrite Hc.
Qed.

(** X3.  The two separators are interchangeable: writing every [-] of
    either version as a [.] does not change the comparison, so a tag after
    a dash is compared like any dotted segment. *)
Theorem compareVersions_separators_interchangeable (a b : jsstring) :
  compareVersions (dotted a) (dotted b) = compareVersions a b.
Proof. unfold compareVersions, parseVersion. by rewrite !split_dotted. Qed.

End ComparatorShape.

Section ComparatorExamples.

(** X2, on [1.20]. *)
Lemma compareVersions_trailing_zero_example :
  is_version_separator 46%N = true /\
  compareVersions (js "1.20") (js "1.20" ++ [46%N]) = 0 /\
  compareVersions (js "1.20") (js "1.20" ++ [46%N; 48%N]) = 0.
Proof.
  split; [reflexivity|].
  apply (compareVersions_trailing_zero (js "1.20") 46%N). reflexivity.
Defined.

End ComparatorExamples.

(* ===================================================================== *)
(** * What a computation leaves unchanged *)
(* ===================================================================== *)

Section Keeps.

Context (R : World -> World -> Prop) `{!Reflexive R} `{!Transitive R}.

Lemma keeps_ret {A} (a : A) : keeps R (mret a).
Proof. by intros w r w' [= <- <-]. Qed.

Lemma keeps_throw {A} (e : jsstring) : keeps R (@throw A e).
Proof. by intros w r w' [= <- <-]. Qed.

Lemma keeps_bind {A B} (m : M A) (f : A -> M B) :
  keeps R m -> (forall a, keeps R (f a)) -> keeps R (m ≫= f).
Proof.
  intros Hm Hf w r w'. rewrite bind_run.
  destruct (m w) as [[a|e] w1] eqn:Hrun; intros H.
  - transitivity w1; [by eapply Hm | by eapply Hf].
  - injection H as <- <-. by eapply Hm.
Qed.

Lemma keeps_try_catch {A} (m : M A) (h : jsstring -> M A) :
  keeps R m -> (forall e, keeps R (h e)) -> keeps R (try_catch m h).
Proof.
  intros Hm Hh w r w'. unfold try_catch.
  destruct (m w) as [[a|e] w1] eqn:Hrun; intros H.
  - injection H as <- <-. by eapply Hm.
  - transitivity w1; [by eapply Hm | by eapply Hh].
Qed.

Lemma keeps_get_fs : keeps R get_fs.
Proof. by intros w r w' [= <- <-]. Qed.

Lemma keeps_Date_now (E : Env) : keeps R (Date_now E).
Proof. by intros w r w' [= <- <-]. Qed.

End Keeps.

#[global] Instance same_fs_refl : Reflexive same_fs.
Proof. by intros w. Qed.

#[global] Instance same_fs_trans : Transitive same_fs.
Proof. intros w1 w2 w3 H12 H23. unfold same_fs in *. congruence. Qed.

Create HintDb keeps discriminated.
#[local] Hint Resolve keeps_ret keeps_throw keeps_get_fs keeps_Date_now : keeps.
#[local] Hint Extern 1 (Reflexive same_fs) => exact same_fs_refl : keeps.
#[local] Hint Extern 1 (Transitive same_fs) => exact same_fs_trans : keeps.

Ltac keeps_step :=
  match goal with
  | |- keeps _ (_ ≫= _) => apply keeps_bind; [exact _| |intros]
  | |- keeps _ (try_catch _ _) => apply keeps_try_catch; [exact _| |intros]
  | |- keeps _ (match ?x with _ => _ end) => destruct x
  | |- keeps _ (if ?x then _ else _) => destruct x
  | |- keeps _ _ => solve [eauto with keeps]
  end.
Ltac keeps_auto := repeat keeps_step.

Section ReadOnly.

Context (E : Env).

Lemma same_fs_emit (e : Event) : keeps same_fs (emit e).
Proof. by intros w r w' [= <- <-]. Qed.

Lemma same_fs_perform (op : IoOp) : keeps same_fs (perform E op).
Proof. by intros w r w' [= <- <-]. Qed.

#[local] Hint Resolve same_fs_emit same_fs_perform : keeps.

Lemma same_fs_io (op : IoOp) : keeps same_fs (io E op).
Proof. unfold io. keeps_auto. Qed.
#[local] Hint Resolve same_fs_io : keeps.

Lemma same_fs_pathExists (p : Path) : keeps same_fs (pathExists E p).
Proof. unfold pathExists. keeps_auto. Qed.

Lemma same_fs_readdir (p : Path) : keeps same_fs (readdir E p).
Proof. unfold readdir. keeps_auto. Qed.

Lemma same_fs_stat_mtime (p : Path) : keeps same_fs (stat_mtime E p).
Proof. unfold stat_mtime. keeps_auto. Qed.

Lemma same_fs_readJson (p : Path) : keeps same_fs (readJson E p).
Proof. unfold readJson. keeps_auto. Qed.

#[local] Hint Resolve same_fs_pathExists same_fs_readdir same_fs_stat_mtime
  same_fs_readJson : keeps.

Lemma same_fs_loadModRegistry (profileId : jsstring) :
  keeps same_fs (loadModRegistry E profileId).
Proof. unfold loadModRegistry. keeps_auto. Qed.
#[local] Hint Resolve same_fs_loadModRegistry : keeps.

Lemma same_fs_collectMods (modsPath : Path) (reg : gmap jsstring ModInfo.t)
    (jarFiles : list jsstring) :
  forall acc, keeps same_fs (collectMods E modsPath reg jarFiles acc).
Proof.
  induction jarFiles as [|file rest IH]; intros acc; cbn [collectMods].
  - keeps_auto.
  - destruct (reg !! file) as [modInfo|]; [|apply IH].
    destruct (ModInfo.projectId modInfo) as [[|c p]|]; try apply IH.
    apply keeps_bind; [exact _ | eauto with keeps | intros; apply IH].
Qed.

Lemma same_fs_getInstalledMods (profile : Profile.t) :
  keeps same_fs (getInstalledMods E profile).
Proof.
  unfold getInstalledMods.
  apply keeps_bind; [exact _ | eauto with keeps | intros found].
  destruct (negb found); [eauto with keeps|].
  apply keeps_bind; [exact _ | eauto with keeps | intros reg].
  apply keeps_bind; [exact _ | eauto with keeps | intros files].
  apply same_fs_collectMods.
Qed.

Lemma same_fs_api_latest (p g l : jsstring) : keeps same_fs (api_latest E p g l).
Proof.
  intros w r w'. unfold api_latest.
  generalize (api_getLatestVersion E (tick w) p g l). intros v. revert w r w'.
  change (keeps same_fs (io E (GetLatestVersion p g l) ≫= fun _ => mret v)).
  keeps_auto.
Qed.
#[local] Hint Resolve same_fs_api_latest : keeps.

Lemma same_fs_checkMod (profile : Profile.t) (m : Mod.t) (i total : nat) :
  keeps same_fs (checkMod E profile m i total).
Proof. unfold checkMod. keeps_auto. Qed.

Lemma same_fs_checkLoop (profile : Profile.t) (total : nat) (mods : list Mod.t) :
  forall i acc, keeps same_fs (checkLoop E profile total i mods acc).
Proof.
  induction mods as [|m rest IH]; intros i acc; cbn [checkLoop].
  - keeps_auto.
  - apply keeps_bind; [exact _ | apply same_fs_checkMod | intros; apply IH].
Qed.

(** X4.  Checking for updates never changes the disk: whatever the catalog
    and the file system answer, and whether the check returns or throws,
    the files, the directories and the registry are as before. *)
Theorem checkForUpdates_leaves_disk_unchanged (profileId : jsstring)
    (w : World) :
  fs (snd (checkForUpdates E profileId w)) = fs w.
Proof.
  assert (H : keeps same_fs (checkForUpdates E profileId)).
  { unfold checkForUpdates.
    destruct (getProfile E profileId) as [profile|]; [|eauto with keeps].
    apply keeps_bind; [exact _ | apply same_fs_getInstalledMods | intros mods].
    apply keeps_bind; [exact _ | eauto with keeps | intros _].
    apply keeps_bind; [exact _ | apply same_fs_checkLoop | intros results].
    keeps_auto. }
  destruct (checkForUpdates E profileId w) as [r w'] eqn:Hrun.
  exact (H _ _ _ Hrun).
Qed.

End ReadOnly.

(* ===================================================================== *)
(** * The registry file *)
(* ===================================================================== *)

Section Registry.

Context (E : Env).

(** The existence check answers [false] when the call itself errs. *)
Lemma pathExists_run (p : Path) (w : World) :
  pathExists E p w
  = (Ok match io_fault E (tick w) with
        | Some _ => false
        | None => bool_decide (is_Some (fs w !! p))
        end,
     after_call (PathExists p) w).
Proof. reflexivity. Qed.

Lemma readJson_run (p : Path) (w : World) :
  readJson E p w
  = (match io_fault E (tick w) with
     | Some message => Throw message
     | None =>
         match fs w !! p with
         | Some (File (RegistryJson r) _) => Ok r
         | Some (File (Raw _) _) => Throw (js "Unexpected token in JSON")
         | Some (Dir _) => Throw (js "EISDIR: illegal operation on a directory")
         | None => Throw (js "ENOENT: no such file or directory")
         end
     end,
     after_call (ReadJson p) w).
Proof.
  cbv [readJson mbind M_bind bind io perform get_fs mret M_ret ret throw].
  destruct (io_fault E (tick w)); [reflexivity|]. cbn [fs].
  by destruct (fs w !! p) as [[[b|r] t|t]|].
Qed.

(** A [writeJson] that returns has replaced the file. *)
Lemma writeJson_Ok (p : Path) (r : gmap jsstring ModInfo.t) (w w' : World) :
  writeJson E p r w = (Ok tt, w') ->
  fs w' = <[p := File (RegistryJson r) (date_now E (S (tick w)))]> (fs w)
  /\ tick w' = S (tick w).
Proof.
  cbv [writeJson mbind M_bind bind io perform get_fs put_fs Date_now
       mret M_ret ret throw].
  cbn [fs tick]. intros H. repeat case_match; simplify_eq; done.
Qed.

Lemma writeJson_Throw (p : Path) (r : gmap jsstring ModInfo.t) (w w' : World)
    (e : jsstring) :
  writeJson E p r w = (Throw e, w') -> fs w' = fs w.
Proof.
  cbv [writeJson mbind M_bind bind io perform get_fs put_fs Date_now
       mret M_ret ret throw].
  cbn [fs tick]. intros H. repeat case_match; simplify_eq; done.
Qed.

(** What [loadModRegistry] returns, by the state of the registry file. *)
Lemma loadModRegistry_run (profileId : jsstring) (w : World) :
  let p := registryPath E profileId in
  loadModRegistry E profileId w =
    if match io_fault E (tick w) with
       | Some _ => false
       | None => bool_decide (is_Some (fs w !! p))
       end
    then readJson E p (after_call (PathExists p) w)
    else (Ok ∅, after_call (PathExists p) w).
Proof.
  intros p. unfold loadModRegistry. rewrite bind_run, pathExists_run. fold p.
  destruct (io_fault E (tick w)); [done|]. by destruct (bool_decide _).
Qed.

(** X5.  Without a registry file, [loadModRegistry] returns the empty
    registry instead of failing, and an [updateModRegistry] that returns
    has created the file with the new entry as its only entry. *)
Theorem registry_created_when_missing (profileId oldFileName : jsstring)
    (modInfo : ModInfo.t) (w w' : World) :
  fs w !! registryPath E profileId = None ->
  fst (loadModRegistry E profileId w) = Ok ∅ /\
  (updateModRegistry E profileId oldFileName modInfo w = (Ok tt, w') ->
   exists t,
     fs w' !! registryPath E profileId
     = Some (File (RegistryJson {[ ModInfo.fileName modInfo := modInfo ]}) t)).
Proof.
  intros Hnone.
  assert (Hload : loadModRegistry E profileId w
                  = (Ok ∅, after_call (PathExists (registryPath E profileId)) w)).
  { rewrite loadModRegistry_run, Hnone.
    destruct (io_fault E (tick w)); [done|].
    rewrite bool_decide_eq_false_2; [done|]. by intros [? ?]. }
  split; [by rewrite Hload|].
  unfold updateModRegistry. rewrite bind_run, Hload. intros Hwrite.
  apply writeJson_Ok in Hwrite as [Hfs _]. eexists.
  rewrite Hfs, lookup_insert_eq. do 3 f_equal.
  case_bool_decide; [by rewrite delete_empty|done].
Qed.

(** X6.  When the registry file holds [registry0] and the existence check
    is answered, an [updateModRegistry] that returns rewrites the file
    from [registry0]: the new key is bound to the new entry, the old key is
    gone if it differs, and every other entry is exactly as it was. *)
Theorem updateModRegistry_keeps_other_entries (profileId oldFileName : jsstring)
    (modInfo : ModInfo.t) (registry0 : gmap jsstring ModInfo.t) (t0 : Z)
    (w w' : World) :
  fs w !! registryPath E profileId = Some (File (RegistryJson registry0) t0) ->
  io_fault E (tick w) = None ->
  updateModRegistry E profileId oldFileName modInfo w = (Ok tt, w') ->
  exists registry t,
    fs w' !! registryPath E profileId = Some (File (RegistryJson registry) t) /\
    registry !! ModInfo.fileName modInfo = Some modInfo /\
    (oldFileName ≠ ModInfo.fileName modInfo -> registry !! oldFileName = None) /\
    (forall k, k ≠ oldFileName -> k ≠ ModInfo.fileName modInfo ->
               registry !! k = registry0 !! k).
Proof.
  intros Hfile Hcheck. unfold updateModRegistry.
  rewrite bind_run, loadModRegistry_run, Hfile, Hcheck.
  rewrite bool_decide_eq_true_2 by eauto.
  rewrite readJson_run. cbn [tick fs after_call]. rewrite Hfile.
  destruct (io_fault E (S (tick w))); [discriminate|].
  intros Hwrite. apply writeJson_Ok in Hwrite as [Hfs _].
  eexists _, _. split; [by rewrite Hfs, lookup_insert_eq|].
  split; [by rewrite lookup_insert_eq|]. split.
  - intros Hne. rewrite lookup_insert_ne by done.
    rewrite bool_decide_eq_true_2 by done. apply lookup_delete_eq.
  - intros k Hold Hnew. rewrite lookup_insert_ne by done.
    case_bool_decide; [by rewrite lookup_delete_ne|done].
Qed.

(** X7.  When the existence check of the registry file itself errs,
    [pathExists] answers [false] and [loadModRegistry] starts from the
    empty registry: an [updateModRegistry] that then returns has replaced
    the registry, whatever it held, by the new entry alone. *)
Theorem updateModRegistry_drops_entries_on_failed_check
    (profileId oldFileName : jsstring) (modInfo : ModInfo.t)
    (message : jsstring) (w w' : World) :
  io_fault E (tick w) = Some message ->
  updateModRegistry E profileId oldFileName modInfo w = (Ok tt, w') ->
  exists t,
    fs w' !! registryPath E profileId
    = Some (File (RegistryJson {[ ModInfo.fileName modInfo := modInfo ]}) t).
Proof.
  intros Hcheck. unfold updateModRegistry.
  rewrite bind_run, loadModRegistry_run, Hcheck.
  intros Hwrite. apply writeJson_Ok in Hwrite as [Hfs _]. eexists.
  rewrite Hfs, lookup_insert_eq. do 3 f_equal.
  case_bool_decide; [by rewrite delete_empty|done].
Qed.


(** The handlers of the main process never reject: a failure becomes the
    reply [{ success: false, error }]. *)
Lemma ipc_update_mod_registry_Ok (profileId : jsstring) (modData : ModInfo.t)
    (w w' : World) :
  ipc_update_mod_registry E profileId modData w = (Ok WriteSuccess, w') ->
  exists registry0,
    fs w' = <[registryPath E profileId :=
                File (RegistryJson (<[ModInfo.fileName modData := modData]> registry0))
                     (date_now E (tick w'))]> (fs w)
    /\ fs w' !! registryPath E profileId
       = Some (File (RegistryJson (<[ModInfo.fileName modData := modData]> registry0))
                    (date_now E (tick w'))).
Proof.
  unfold ipc_update_mod_registry, try_catch.
  match goal with
  | |- context [let (_, _) := ?b in _] =>
      destruct b as [[reply|e] w1] eqn:Hbody; [|discriminate]
  end.
  intros [= -> ->]. revert Hbody. rewrite bind_run, pathExists_run.
  generalize (match io_fault E (tick w) with
              | Some _ => false
              | None => bool_decide
                          (is_Some (fs w !! registryPath E profileId))
              end).
  intros found. rewrite bind_run.
  set (w0 := after_call (PathExists (registryPath E profileId)) w).
  assert (Hload : forall r w1,
    (if found then readJson E (registryPath E profileId) else mret ∅) w0
      = (Ok r, w1) -> fs w1 = fs w).
  { intros r w1. destruct found.
    - rewrite readJson_run. by intros [= _ <-].
    - by intros [= _ <-]. }
  destruct ((if found then readJson E (registryPath E profileId) else ret ∅) w0)
    as [[r|e] w1] eqn:Hread; [|discriminate].
  rewrite bind_run.
  destruct (writeJson E _ _ w1) as [[[]|e] w2] eqn:Hwrite; [|discriminate].
  intros [= <-]. apply writeJson_Ok in Hwrite as [Hfs Htick].
  exists r. rewrite Hfs, Htick, (Hload r w1 Hread).
  split; [done | apply lookup_insert_eq].
Qed.


End Registry.

(* ===================================================================== *)
(** * The order of events *)
(* ===================================================================== *)

Section Events.

Lemma new_actions_app (w w' : World) (d : list Action) :
  trace w' = trace w ++ d -> new_actions w w' = d.
Proof. intros H. unfold new_actions. by rewrite H, drop_app_length. Qed.

Lemma events_of_app (l1 l2 : list Action) :
  events_of (l1 ++ l2) = events_of l1 ++ events_of l2.
Proof. apply omap_app. Qed.

Lemma events_of_io (l : list Action) : Forall is_io l -> events_of l = [].
Proof.
  induction 1 as [|a l Ha _ IH]; [reflexivity|].
  destruct a as [e|op]; [done|]. exact IH.
Qed.

Lemma events_of_emit (e : Event) (l : list Action) :
  events_of (Emit e :: l) = e :: events_of l.
Proof. reflexivity. Qed.

End Events.

Section CheckerEvents.

Context (E : Env).

Lemma emits_collectMods (P : Action -> Prop) (HP : forall op, P (Io op))
    (modsPath : Path) (reg : gmap jsstring ModInfo.t) (jarFiles : list jsstring) :
  forall acc, emits P (collectMods E modsPath reg jarFiles acc).
Proof.
  induction jarFiles as [|file rest IH]; intros acc; cbn [collectMods].
  - apply emits_ret.
  - destruct (reg !! file) as [modInfo|]; [|apply IH].
    destruct (ModInfo.projectId modInfo) as [[|c p]|]; try apply IH.
    apply emits_bind; [by apply emits_stat_mtime | intros; apply IH].
Qed.

Lemma emits_getInstalledMods (P : Action -> Prop) (HP : forall op, P (Io op))
    (profile : Profile.t) :
  emits P (getInstalledMods E profile).
Proof.
  unfold getInstalledMods.
  apply emits_bind; [by apply emits_pathExists | intros found].
  destruct (negb found); [apply emits_ret|].
  apply emits_bind; [by apply emits_loadModRegistry | intros reg].
  apply emits_bind; [by apply emits_readdir | intros files].
  by apply emits_collectMods.
Qed.

Lemma emits_api_latest (P : Action -> Prop) (HP : forall op, P (Io op))
    (p g l : jsstring) :
  emits P (api_latest E p g l).
Proof.
  intros w r w'. unfold api_latest.
  generalize (api_getLatestVersion E (tick w) p g l). intros v. revert w r w'.
  change (emits P (io E (GetLatestVersion p g l) ≫= fun _ => mret v)).
  apply emits_bind; [by apply emits_io | intros; apply emits_ret].
Qed.

(** The loop body emits its [checkingMod] event first, and nothing else. *)
Lemma checkMod_trace (profile : Profile.t) (m : Mod.t) (i total : nat)
    (w : World) :
  exists d,
    trace (snd (checkMod E profile m i total w))
    = trace w ++ Emit (checkingMod (Mod.name m) (i + 1) total) :: d
    /\ Forall is_io d.
Proof.
  unfold checkMod, try_catch. rewrite !bind_run. unfold emit. rewrite !bind_run.
  destruct (api_latest E _ _ _ _) as [[[latest|]|e] w2] eqn:Hapi;
    destruct (emits_api_latest is_io (fun _ => I) _ _ _ _ _ _ Hapi)
      as (d & Ed & Fd);
    cbn [trace] in Ed; exists d; (split; [|done]).
  - destruct (Mod.currentVersion m) as [current|]; cbn;
      [destruct (_ <? 0); cbn|]; by rewrite Ed, <- app_assoc.
  - cbn. by rewrite Ed, <- app_assoc.
  - cbn. by rewrite Ed, <- app_assoc.
Qed.

Lemma checkLoop_events (profile : Profile.t) (total : nat) (mods : list Mod.t) :
  forall (i0 : nat) (acc : list UpdateInfo.t) (w : World),
  exists d,
    trace (snd (checkLoop E profile total i0 mods acc w)) = trace w ++ d /\
    events_of d
    = imap (fun j m => checkingMod (Mod.name m) (i0 + j + 1) total) mods.
Proof.
  induction mods as [|m rest IH]; intros i0 acc w.
  - exists []. cbn. by rewrite app_nil_r.
  - rewrite checkLoop_step.
    destruct (checkMod_trace profile m i0 total w) as (d1 & E1 & F1).
    destruct (IH (S i0) (acc ++ [checkReport E profile m i0 total w])
                 (snd (checkMod E profile m i0 total w))) as (d2 & E2 & F2).
    exists ((Emit (checkingMod (Mod.name m) (i0 + 1) total) :: d1) ++ d2).
    split; [by rewrite E2, E1, <- app_assoc|].
    rewrite events_of_app, events_of_emit, (events_of_io d1 F1), F2.
    cbn [imap app]. rewrite Nat.add_0_r. f_equal.
    apply imap_ext. intros j m' _. cbn [compose]. f_equal. lia.
Qed.

(** X10.  A check that finds the [n] installed mods tells its listeners,
    in this order and nothing else: [updateCheckStarted] with the count
    [n]; one [checkingMod] per mod, in the order of the listing, with
    positions 1 to [n] and total [n]; and [updateCheckCompleted] with the
    reports it returns and the number of them that have an update. *)
Theorem checkForUpdates_event_sequence (profileId : jsstring)
    (profile : Profile.t) (mods : list Mod.t) (w w1 : World) :
  getProfile E profileId = Some profile ->
  getInstalledMods E profile w = (Ok mods, w1) ->
  exists reports,
    fst (checkForUpdates E profileId w) = Ok reports /\
    events_of (new_actions w (snd (checkForUpdates E profileId w)))
    = updateCheckStarted profileId (length mods)
      :: imap (fun i m => checkingMod (Mod.name m) (i + 1) (length mods)) mods
      ++ [updateCheckCompleted profileId reports
            (length (List.filter UpdateInfo.hasUpdate reports))].
Proof.
  intros Hp Hmods.
  destruct (emits_getInstalledMods is_io (fun _ => I) profile _ _ _ Hmods)
    as (d0 & E0 & F0).
  unfold checkForUpdates. rewrite Hp, bind_run, Hmods, bind_run.
  unfold emit at 1. rewrite bind_run, checkLoop_spec. cbn [app].
  eexists. split; [reflexivity|]. cbn [snd emit trace].
  set (w0 := Build_World (fs w1) _ _ _).
  destruct (checkLoop_events profile (length mods) mods 0 [] w0)
    as (d & Ed & Fd).
  assert (Hw0 : trace w0 = trace w ++ d0
                 ++ [Emit (updateCheckStarted profileId (length mods))])
    by (subst w0; cbn [trace]; by rewrite E0, <- app_assoc).
  erewrite new_actions_app.
  2:{ rewrite bind_run, checkLoop_spec, bind_run. unfold emit.
      cbn [snd trace]. rewrite Ed, Hw0, <- !app_assoc. reflexivity. }
  rewrite !events_of_app, (events_of_io d0 F0), Fd. reflexivity.
Qed.

End CheckerEvents.

Section BatchEvents.

Context (E : Env).

Lemma emits_updateMod (P : Action -> Prop) (HP : forall op, P (Io op))
    (HPe : forall e, is_update_event e = true -> P (Emit e))
    (report : UpdateInfo.t) (profile : Profile.t) :
  emits P (updateMod E report profile).
Proof.
  unfold updateMod.
  destruct (UpdateInfo.latestVersion report) as [latest|]; [|apply emits_throw].
  apply emits_bind; [by apply emits_emit, HPe | intros _].
  apply emits_try_catch.
  - unfold updateMod_try.
    apply emits_bind; [by apply emits_createBackup | intros _].
    destruct (pickDownloadFile _) as [downloadFile|]; [|apply emits_throw].
    apply emits_bind.
    { apply emits_downloadWithProgress; [done|].
      intros x. by apply emits_emit, HPe. }
    intros _. apply emits_bind; [by apply emits_pathExists | intros found].
    apply emits_bind.
    { destruct found; [by apply emits_remove | apply emits_ret]. }
    intros _. apply emits_bind; [by apply emits_move | intros _].
    apply emits_bind; [apply emits_Date_now | intros now].
    apply emits_bind; [by apply emits_updateModRegistry | intros _].
    apply emits_bind; [by apply emits_emit, HPe | intros _]. apply emits_ret.
  - intros e. unfold updateMod_catch.
    apply emits_bind; [by apply emits_emit, HPe | intros _].
    apply emits_bind; [by apply emits_restoreFromBackup | intros _].
    apply emits_throw.
Qed.

Lemma batch_events_app (l1 l2 : list Action) :
  batch_events (l1 ++ l2) = batch_events l1 ++ batch_events l2.
Proof. unfold batch_events. by rewrite events_of_app, List.filter_app. Qed.

Lemma batch_events_inside (l : list Action) :
  Forall inside_update l -> batch_events l = [].
Proof.
  induction 1 as [|a l Ha _ IH]; [reflexivity|].
  destruct a as [e|op]; [|exact IH].
  unfold batch_events in *. cbn in Ha |- *. by rewrite Ha.
Qed.

Lemma batchLoop_events (profile : Profile.t) (total : nat)
    (mods : list UpdateInfo.t) :
  forall (i0 : nat) (acc : list BatchResult) (w : World),
  exists d,
    trace (snd (batchLoop E total i0 mods profile acc w)) = trace w ++ d /\
    batch_events d
    = imap (fun j report =>
              batchUpdateProgress (i0 + j + 1) total
                (Mod.name (UpdateInfo.installed report))) mods.
Proof.
  induction mods as [|report rest IH]; intros i0 acc w.
  - exists []. cbn. by rewrite app_nil_r.
  - rewrite batchLoop_step.
    set (name := Mod.name (UpdateInfo.installed report)).
    set (w1 := snd (emit (batchUpdateProgress (i0 + 1) total name) w)).
    destruct (updateMod E report profile w1) as [r w2] eqn:Hrun.
    destruct (emits_updateMod inside_update (fun _ => I) (fun _ H => H)
                report profile _ _ _ Hrun) as (d1 & E1 & F1).
    destruct (IH (S i0) (acc ++ [batchEntry E report profile w1]) w2)
      as (d2 & E2 & F2).
    exists ((Emit (batchUpdateProgress (i0 + 1) total name) :: d1) ++ d2).
    split.
    + cbn [snd]. rewrite E2, E1. subst w1. cbn [snd emit trace].
      by rewrite <- !app_assoc.
    + rewrite batch_events_app, F2.
      change (batch_events (Emit ?e :: d1))
        with (batch_events [Emit e] ++ batch_events d1) at 1.
      rewrite (batch_events_inside d1 F1). cbn [imap app].
      rewrite Nat.add_0_r. cbn. f_equal.
      apply imap_ext. intros j r' _. cbn [compose]. f_equal. lia.
Qed.


End BatchEvents.

(* ===================================================================== *)
(** * Downloads *)
(* ===================================================================== *)

Section Download.

Context (E : Env).

Lemma axios_get_Ok (url : jsstring) (w w' : World) (response : HttpResponse) :
  axios_get E url w = (Ok response, w') ->
  response = http_get E (tick w) url /\ trace w' = trace w ++ [Io (HttpGet url)].
Proof.
  cbv [axios_get mbind M_bind bind io perform mret M_ret ret throw].
  intros H. repeat case_match; simplify_eq; done.
Qed.

Lemma openWrite_Ok (p : Path) (w w' : World) :
  openWrite E p w = (Ok tt, w') ->
  exists t, fs w' !! p = Some (File (Raw []) t).
Proof.
  cbv [openWrite mbind M_bind bind io perform get_fs put_fs Date_now
       mret M_ret ret throw].
  cbn [fs tick]. intros H. repeat case_match; simplify_eq.
  eexists. cbn [fs]. apply lookup_insert_eq.
Qed.

Lemma writeChunk_Ok (p : Path) (chunk : list N) (w w' : World) :
  writeChunk E p chunk w = (Ok tt, w') ->
  exists bytes t t',
    fs w !! p = Some (File (Raw bytes) t) /\
    fs w' !! p = Some (File (Raw (bytes ++ chunk)) t').
Proof.
  cbv [writeChunk mbind M_bind bind io perform get_fs put_fs Date_now
       mret M_ret ret throw].
  cbn [fs tick]. intros H. repeat case_match; simplify_eq.
  eexists _, _, _. split; [done|]. cbn [fs]. apply lookup_insert_eq.
Qed.

(** The stream is appended to the destination chunk by chunk. *)
Lemma pump_content (dest : Path) (onProgress : number -> M unit)
    (total : number) (data : list (list N)) :
  (forall x, keeps same_fs (onProgress x)) ->
  forall (downloaded : number) (bytes : list N) (t : Z) (w w' : World),
    fs w !! dest = Some (File (Raw bytes) t) ->
    pump E dest onProgress total downloaded data w = (Ok tt, w') ->
    exists t', fs w' !! dest = Some (File (Raw (bytes ++ concat data)) t').
Proof.
  intros Hcb. induction data as [|chunk rest IH];
    intros downloaded bytes t w w' Hfile; cbn [pump].
  - intros [= <-]. exists t. by rewrite app_nil_r.
  - intros Hrun.
    apply bind_Ok_inv in Hrun as ([] & w1 & Hprogress & Hrun).
    apply bind_Ok_inv in Hrun as ([] & w2 & Hwrite & Hrun).
    apply Hcb in Hprogress. unfold same_fs in Hprogress.
    apply writeChunk_Ok in Hwrite as (bytes' & t1 & t2 & Hold & Hnew).
    rewrite Hprogress, Hfile in Hold. injection Hold as <- <-.
    destruct (IH _ _ _ _ _ Hnew Hrun) as (t' & Hend).
    exists t'. cbn [concat]. by rewrite app_assoc.
Qed.

(** X12.  A download that returns leaves at the destination exactly the
    bytes of the response stream, in order, whatever was there before
    (the progress listener is assumed not to touch the disk). *)
Theorem downloadWithProgress_stores_stream (url : jsstring)
    (destination : Path) (onProgress : number -> M unit) (w w' : World) :
  (forall x, keeps same_fs (onProgress x)) ->
  downloadWithProgress E url destination onProgress w = (Ok tt, w') ->
  exists t,
    fs w' !! destination
    = Some (File (Raw (concat (chunks (http_get E (tick w) url)))) t).
Proof.
  intros Hcb Hrun. unfold downloadWithProgress in Hrun.
  apply bind_Ok_inv in Hrun as (response & w1 & Hget & Hrun).
  apply axios_get_Ok in Hget as [-> _].
  apply bind_Ok_inv in Hrun as ([] & w2 & _ & Hrun).
  apply bind_Ok_inv in Hrun as ([] & w3 & Hopen & Hrun).
  apply openWrite_Ok in Hopen as (t0 & Hopen).
  exact (pump_content _ _ _ _ Hcb _ _ _ _ _ Hopen Hrun).
Qed.

(** Without a usable total, every chunk is reported as progress 0. *)
Lemma pump_progress_zero (dest : Path) (name : jsstring) (total : number)
    (data : list (list N)) :
  truthy (Some (VNum total)) = false ->
  forall (downloaded : number) (w w' : World) (r : outcome unit),
    (pump E dest (fun progress => emit (downloading name progress))
       total downloaded data w) = (r, w') ->
    exists k d,
      (k <= length data)%nat /\
      trace w' = trace w ++ d /\
      events_of d = replicate k (downloading name pos_zero) /\
      (r = Ok tt -> k = length data).
Proof.
  intros Hfalsy. induction data as [|chunk rest IH]; intros downloaded w w' r.
  - intros [= <- <-]. exists 0%nat, []. by rewrite app_nil_r.
  - cbn [pump]. rewrite bind_run. unfold emit at 1.
    unfold download_progress at 1. rewrite Hfalsy.
    change (math_round pos_zero) with pos_zero.
    set (w0 := Build_World (fs w) _ _ _). rewrite bind_run.
    destruct (writeChunk E dest chunk w0) as [[[]|e] w1] eqn:Hwrite;
      destruct (emits_writeChunk E is_io (fun _ => I) _ _ _ _ _ Hwrite)
        as (d1 & E1 & F1).
    + intros Hrest.
      destruct (IH _ _ _ _ Hrest) as (k & d & Hk & Ed & Fd & Hok).
      exists (S k), (Emit (downloading name pos_zero) :: d1 ++ d).
      split; [cbn [length]; lia|]. split.
      { rewrite Ed, E1. subst w0. cbn [trace]. by rewrite <- !app_assoc. }
      split.
      { rewrite events_of_emit, events_of_app, (events_of_io d1 F1), Fd. done. }
      intros H. cbn [length]. f_equal. by apply Hok.
    + intros [= <- <-].
      exists 1%nat, (Emit (downloading name pos_zero) :: d1).
      split; [cbn [length]; lia|]. split.
      { rewrite E1. subst w0. cbn [trace]. by rewrite <- !app_assoc. }
      split; [by rewrite events_of_emit, (events_of_io d1 F1)|].
      discriminate.
Qed.

(** X13.  When the response has no [content-length] header, the listener
    of a download is called with progress 0 for every chunk it sees: one
    call per chunk of the stream when the download returns, and never
    with any other value. *)
Theorem downloadWithProgress_without_content_length (url name : jsstring)
    (destination : Path) (w : World) :
  content_length (http_get E (tick w) url) = None ->
  let data := chunks (http_get E (tick w) url) in
  let run := downloadWithProgress E url destination
               (fun progress => emit (downloading name progress)) w in
  exists k,
    (k <= length data)%nat /\
    events_of (new_actions w (snd run))
    = replicate k (downloading name pos_zero) /\
    (fst run = Ok tt -> k = length data).
Proof.
  intros Hheader data run.
  destruct run as [r w'] eqn:Hrun. subst run. cbn [fst snd].
  revert Hrun. unfold downloadWithProgress. rewrite bind_run.
  destruct (axios_get E url w) as [[response|e] w1] eqn:Hget;
    destruct (emits_axios_get E is_io (fun _ => I) _ _ _ _ Hget)
      as (d1 & E1 & F1).
  2:{ intros [= <- <-]. exists 0%nat. split; [lia|]. split; [|discriminate].
      by rewrite (new_actions_app _ _ d1 E1), (events_of_io d1 F1). }
  apply axios_get_Ok in Hget as [-> _]. rewrite Hheader. cbn [default].
  rewrite bind_run.
  destruct (ensureDir E _ w1) as [[[]|e] w2] eqn:Hdir;
    destruct (emits_ensureDir E is_io (fun _ => I) _ _ _ _ Hdir)
      as (d2 & E2 & F2).
  2:{ intros [= <- <-]. exists 0%nat. split; [lia|]. split; [|discriminate].
      erewrite new_actions_app by (rewrite E2, E1, <- app_assoc; reflexivity).
      by rewrite events_of_app, (events_of_io d1 F1), (events_of_io d2 F2). }
  rewrite bind_run.
  destruct (openWrite E _ w2) as [[[]|e] w3] eqn:Hopen;
    destruct (emits_openWrite E is_io (fun _ => I) _ _ _ _ Hopen)
      as (d3 & E3 & F3).
  2:{ intros [= <- <-]. exists 0%nat. split; [lia|]. split; [|discriminate].
      erewrite new_actions_app
        by (rewrite E3, E2, E1, <- !app_assoc; reflexivity).
      by rewrite !events_of_app, (events_of_io d1 F1), (events_of_io d2 F2),
           (events_of_io d3 F3). }
  intros Hpump.
  destruct (pump_progress_zero destination name
              (parseInt (js "undefined") 10) data eq_refl _ _ _ _ Hpump)
    as (k & d & Hk & Ed & Fd & Hok).
  exists k. split; [done|]. split; [|exact Hok].
  erewrite new_actions_app
    by (rewrite Ed, E3, E2, E1, <- !app_assoc; reflexivity).
  by rewrite !events_of_app, (events_of_io d1 F1), (events_of_io d2 F2),
       (events_of_io d3 F3), Fd.
Qed.

End Download.

(* ===================================================================== *)
(** * Backups *)
(* ===================================================================== *)

Section StringOrder.

Lemma str_lt_cotransitive (a : jsstring) :
  forall b c, str_lt a c = true -> str_lt a b = true \/ str_lt b c = true.
Proof.
  induction a as [|x a IH]; intros [|y b] [|z c]; simpl; try (by auto).
  destruct (N.ltb_spec x z) as [Hxz|Hxz].
  - intros _. destruct (N.ltb_spec x y); [by left|].
    right. destruct (N.ltb_spec y z); [done|lia].
  - destruct (N.ltb_spec z x) as [Hzx|Hzx]; [discriminate|].
    assert (x = z) as <- by lia. intros Hac.
    destruct (N.ltb_spec x y); [by left|].
    destruct (N.ltb_spec y x); [by right|]. apply IH, Hac.
Qed.

Lemma str_lt_antisym (a : jsstring) :
  forall b, str_lt a b = false -> str_lt b a = false -> a = b.
Proof.
  induction a as [|x a IH]; intros [|y b]; simpl; try congruence.
  destruct (N.ltb_spec x y); [discriminate|].
  destruct (N.ltb_spec y x); [discriminate|].
  intros Hab Hba. assert (x = y) as -> by lia. f_equal. by apply IH.
Qed.

#[local] Instance str_le_total : Total str_le.
Proof.
  intros a b. unfold str_le.
  destruct (str_lt b a) eqn:H; [right; by apply str_lt_asym | by left].
Qed.

#[local] Instance str_le_trans : Transitive str_le.
Proof.
  intros a b c Hab Hbc. unfold str_le in *.
  destruct (str_lt c a) eqn:Hca; [|done].
  destruct (str_lt_cotransitive c b a Hca); congruence.
Qed.

(** [l.sort().reverse()[0]] is a greatest element of [l]. *)
Lemma head_reverse_sort (l : list jsstring) (latest : jsstring)
    (rest : list jsstring) :
  reverse (sort_strings l) = latest :: rest ->
  latest ∈ l /\ forall n, n ∈ l -> str_lt latest n = false.
Proof.
  intros Hrev.
  assert (Hsorted : sort_strings l = reverse rest ++ [latest]).
  { rewrite <- (reverse_involutive (sort_strings l)), Hrev.
    by rewrite reverse_cons. }
  pose proof (StronglySorted_merge_sort str_le l) as Hs.
  pose proof (merge_sort_Permutation str_le l) as Hp.
  fold (sort_strings l) in Hs, Hp. rewrite Hsorted in Hs, Hp.
  split.
  - rewrite <- Hp. set_solver.
  - intros n Hn. rewrite <- Hp in Hn.
    apply elem_of_app in Hn as [Hn|Hn].
    + apply (StronglySorted_app_1_elem_of str_le _ _ n latest Hs Hn).
      set_solver.
    + apply list_elem_of_singleton in Hn as ->. apply str_lt_irrefl.
Qed.

Lemma reverse_sort_nil (l : list jsstring) :
  reverse (sort_strings l) = [] -> l = [].
Proof.
  intros H. apply (f_equal reverse) in H.
  rewrite reverse_involutive, reverse_nil in H.
  apply Permutation_nil_r. rewrite <- H.
  symmetry. apply merge_sort_Permutation.
Qed.

End StringOrder.

Section Disk.

Context (E : Env).

(** [mkdir -p] adds directories; it changes nothing that exists. *)
Lemma mkdirs_preserves (p : Path) (now : Z) (f f' : gmap Path Node) :
  mkdirs p now f = Some f' ->
  forall q n, f !! q = Some n -> f' !! q = Some n.
Proof.
  unfold mkdirs. destruct (existsb _ _); [discriminate|]. intros [= <-].
  generalize (ancestors_and_self p). intros l. revert f.
  induction l as [|a l IH]; intros f q n Hq; cbn [fold_left]; [done|].
  apply IH. destruct (f !! a) eqn:Ha; [done|].
  rewrite lookup_insert_ne; [done|]. congruence.
Qed.

Lemma mkdirs_absent (p : Path) (now : Z) (f f' : gmap Path Node) (q : Path) :
  mkdirs p now f = Some f' ->
  f !! q = None -> ¬ q `prefix_of` p -> f' !! q = None.
Proof.
  unfold mkdirs. destruct (existsb _ _); [discriminate|]. intros [= <-].
  intros Hq Hpre.
  assert (Hl : Forall (fun a => a ≠ q) (ancestors_and_self p)).
  { apply Forall_forall. intros a Ha ->. apply Hpre.
    unfold ancestors_and_self in Ha. apply list_elem_of_fmap in Ha as (k & -> & _).
    apply prefix_take. }
  revert Hl Hq. generalize (ancestors_and_self p). intros l. revert f.
  induction l as [|a l IH]; intros f Hl Hq; cbn [fold_left]; [done|].
  apply Forall_cons in Hl as [Ha Hl]. apply IH; [done|].
  destruct (f !! a); [done|]. by rewrite lookup_insert_ne.
Qed.

Lemma ensureDir_Ok (p : Path) (w w' : World) :
  ensureDir E p w = (Ok tt, w') ->
  tick w' = S (tick w) /\
  (forall q n, fs w !! q = Some n -> fs w' !! q = Some n) /\
  (forall q, fs w !! q = None -> ¬ q `prefix_of` p -> fs w' !! q = None).
Proof.
  cbv [ensureDir mbind M_bind bind io perform get_fs put_fs Date_now
       mret M_ret ret throw].
  cbn [fs tick]. intros H. repeat case_match; simplify_eq. cbn [fs tick].
  split; [done|]. split.
  - by eapply mkdirs_preserves.
  - intros q. by eapply mkdirs_absent.
Qed.

(** Copying a file: the destination gets its content, nothing else that
    existed changes. *)
Lemma copy_file_Ok (src dst : Path) (c : Content) (t : Z) (w w' : World) :
  fs w !! src = Some (File c t) ->
  copy E src dst w = (Ok tt, w') ->
  fs w' !! dst = Some (File c (date_now E (S (tick w)))) /\
  (forall q n, q ≠ dst -> fs w !! q = Some n -> fs w' !! q = Some n).
Proof.
  intros Hsrc.
  cbv [copy mbind M_bind bind io perform get_fs put_fs Date_now
       mret M_ret ret throw].
  destruct (io_fault E (tick w)); [discriminate|].
  cbn [fs tick]. rewrite Hsrc. intros H. repeat case_match; simplify_eq.
  cbn [fs]. split; [apply lookup_insert_eq|].
  intros q n Hq Hn. rewrite lookup_insert_ne by done.
  by eapply mkdirs_preserves.
Qed.

(** Copying what is not there fails. *)
Lemma copy_absent (src dst : Path) (w : World) :
  fs w !! src = None -> exists e, fst (copy E src dst w) = Throw e.
Proof.
  intros Hsrc.
  cbv [copy mbind M_bind bind io perform get_fs put_fs Date_now
       mret M_ret ret throw].
  destruct (io_fault E (tick w)); [by eauto|].
  cbn [fs tick]. rewrite Hsrc. eauto.
Qed.

End Disk.

Section Backup.

Context (E : Env).

(** X14.  A backup that returns has copied the mod file, content
    unchanged, to [<profile>/backups/mods/<fileName>.backup.<now>], and
    returns that path; the mod file keeps its content and nothing else
    that was on the disk is changed or lost. *)
Theorem createBackup_copies_mod (m : Mod.t) (profile : Profile.t)
    (c : Content) (t : Z) (backupPath : Path) (w w' : World) :
  fs w !! Mod.filePath m = Some (File c t) ->
  createBackup E m profile w = (Ok backupPath, w') ->
  backupPath
  = Profile.path profile
    ++ [js "backups"; js "mods";
        Mod.fileName m ++ js ".backup."
        ++ number_to_string (of_Z (date_now E (S (tick w))))] /\
  (exists t', fs w' !! backupPath = Some (File c t')) /\
  (exists t', fs w' !! Mod.filePath m = Some (File c t')) /\
  (forall q n, q ≠ backupPath -> fs w !! q = Some n -> fs w' !! q = Some n).
Proof.
  intros Hfile Hrun. unfold createBackup in Hrun.
  apply bind_Ok_inv in Hrun as ([] & w1 & Hdir & Hrun).
  apply ensureDir_Ok in Hdir as (Htick & Hkeep & _).
  rewrite bind_run in Hrun. unfold Date_now at 1 in Hrun. rewrite Htick in Hrun.
  apply bind_Ok_inv in Hrun as ([] & w2 & Hcopy & [= <- <-]).
  apply (copy_file_Ok E _ _ c t) in Hcopy as [Hdst Hrest]; [|by apply Hkeep].
  split.
  { unfold path_join, backupDir, path_join. by rewrite <- app_assoc. }
  split; [eauto|]. split.
  - destruct (decide (Mod.filePath m
                      = path_join (backupDir profile)
                          [Mod.fileName m ++ js ".backup."
                           ++ number_to_string
                                (of_Z (date_now E (S (tick w))))]))
      as [Heq|Hne].
    + rewrite Heq. eauto.
    + exists t. apply Hrest; [done|]. by apply Hkeep.
  - intros q n Hq Hn. apply Hrest; [done|]. by apply Hkeep.
Qed.

End Backup.

Section Restore.

Context (E : Env).

Lemma readdir_run (p : Path) (w : World) :
  readdir E p w
  = (match io_fault E (tick w) with
     | Some message => Throw message
     | None =>
         if is_dir (fs w) p then Ok (entries p (fs w))
         else if is_file (fs w) p then Throw (js "ENOTDIR: not a directory")
         else Throw (js "ENOENT: no such file or directory")
     end,
     after_call (ReadDir p) w).
Proof.
  cbv [readdir mbind M_bind bind io perform get_fs mret M_ret ret throw].
  destruct (io_fault E (tick w)); [reflexivity|]. cbn [fs].
  by repeat case_match.
Qed.

(** X15.  A restore has nothing to do, and says nothing about it, when the
    backup folder is absent, when the check for it errs, or when the
    folder holds no backup of the mod: it returns normally and the disk is
    as it was. *)
Theorem restoreFromBackup_nothing_to_restore (m : Mod.t) (profile : Profile.t)
    (w : World) :
  io_fault E (tick w) ≠ None \/
  fs w !! backupDir profile = None \/
  (io_fault E (S (tick w)) = None /\
   is_dir (fs w) (backupDir profile) = true /\
   backupsOf m profile (fs w) = []) ->
  fst (restoreFromBackup E m profile w) = Ok tt /\
  fs (snd (restoreFromBackup E m profile w)) = fs w.
Proof.
  unfold restoreFromBackup. rewrite bind_run, pathExists_run.
  intros [Hfault | [Habsent | (Hlist & Hdir & Hnone)]].
  - by destruct (io_fault E (tick w)).
  - rewrite Habsent. destruct (io_fault E (tick w)); [done|].
    rewrite bool_decide_eq_false_2; [done|]. by intros [? ?].
  - destruct (io_fault E (tick w)); [done|].
    destruct (bool_decide _); [|done]. cbn [negb].
    rewrite bind_run, readdir_run. cbn [tick fs after_call].
    rewrite Hlist, Hdir. fold (backupsOf m profile (fs w)). by rewrite Hnone.
Qed.

(** X16.  When the backup folder lists backups of the mod, a restore
    copies over the mod file the one whose name is greatest in code-unit
    order ([sort().reverse()[0]]), and a restore that returns has put the
    content of that backup at the path of the mod. *)
Theorem restoreFromBackup_uses_greatest_backup (m : Mod.t)
    (profile : Profile.t) (w : World) :
  io_fault E (tick w) = None ->
  io_fault E (S (tick w)) = None ->
  is_dir (fs w) (backupDir profile) = true ->
  backupsOf m profile (fs w) ≠ [] ->
  exists latest,
    latest ∈ backupsOf m profile (fs w) /\
    (forall n, n ∈ backupsOf m profile (fs w) -> str_lt latest n = false) /\
    restoreFromBackup E m profile w
    = copy E (backupDir profile ++ [latest]) (Mod.filePath m)
        (after_call (ReadDir (backupDir profile))
           (after_call (PathExists (backupDir profile)) w)) /\
    (forall c t w',
        fs w !! (backupDir profile ++ [latest]) = Some (File c t) ->
        restoreFromBackup E m profile w = (Ok tt, w') ->
        exists t', fs w' !! Mod.filePath m = Some (File c t')).
Proof.
  intros Hcheck Hlist Hdir Hsome.
  assert (Hexists : is_Some (fs w !! backupDir profile)).
  { unfold is_dir in Hdir. destruct (backupDir profile) eqn:Hb.
    - unfold backupDir, path_join in Hb. by destruct (Profile.path profile).
    - by destruct (fs w !! _) as [[]|]. }
  destruct (reverse (sort_strings (backupsOf m profile (fs w))))
    as [|latest rest] eqn:Hsort.
  { by apply reverse_sort_nil in Hsort. }
  destruct (head_reverse_sort _ _ _ Hsort) as [Hin Hmax].
  assert (Hrun : restoreFromBackup E m profile w
                 = copy E (backupDir profile ++ [latest]) (Mod.filePath m)
                     (after_call (ReadDir (backupDir profile))
                        (after_call (PathExists (backupDir profile)) w))).
  { unfold restoreFromBackup. rewrite bind_run, pathExists_run, Hcheck.
    rewrite bool_decide_eq_true_2 by done. cbn [negb].
    rewrite bind_run, readdir_run. cbn [tick fs after_call].
    rewrite Hlist, Hdir. fold (backupsOf m profile (fs w)).
    by rewrite Hsort. }
  exists latest. split; [done|]. split; [done|]. split; [done|].
  intros c t w' Hfile Hok. rewrite Hrun in Hok.
  apply (copy_file_Ok E _ _ c t) in Hok as [Hdst _]; [eauto|done].
Qed.

End Restore.

(* ===================================================================== *)
(** * Network requests of an update *)
(* ===================================================================== *)

Section Requests.

Context (E : Env) (P : Action -> Prop).
Context (HP : forall op, is_http op = false -> P (Io op)).

#[local] Hint Resolve HP : emits.

Lemma local_io op : is_http op = false -> emits P (io E op).
Proof. intros H. unfold io. emits_auto. Qed.
#[local] Hint Resolve local_io : emits.

Lemma local_pathExists p : emits P (pathExists E p).
Proof. unfold pathExists. emits_auto. Qed.

Lemma local_ensureDir p : emits P (ensureDir E p).
Proof. unfold ensureDir. emits_auto. Qed.

Lemma local_copy src dst : emits P (copy E src dst).
Proof. unfold copy. emits_auto. Qed.

Lemma local_remove p : emits P (remove E p).
Proof. unfold remove. emits_auto. Qed.

Lemma local_move src dst : emits P (move E src dst).
Proof. unfold move. emits_auto. Qed.

Lemma local_readdir p : emits P (readdir E p).
Proof. unfold readdir. emits_auto. Qed.

Lemma local_readJson p : emits P (readJson E p).
Proof. unfold readJson. emits_auto. Qed.

Lemma local_writeJson p r : emits P (writeJson E p r).
Proof. unfold writeJson. emits_auto. Qed.

Lemma local_openWrite p : emits P (openWrite E p).
Proof. unfold openWrite. emits_auto. Qed.

Lemma local_writeChunk p c : emits P (writeChunk E p c).
Proof. unfold writeChunk. emits_auto. Qed.

#[local] Hint Resolve local_pathExists local_ensureDir local_copy local_remove
  local_move local_readdir local_readJson local_writeJson local_openWrite
  local_writeChunk : emits.

Lemma local_updateModRegistry pid old info :
  emits P (updateModRegistry E pid old info).
Proof. unfold updateModRegistry, loadModRegistry. emits_auto. Qed.

Lemma local_createBackup m profile : emits P (createBackup E m profile).
Proof. unfold createBackup. emits_auto. Qed.

Lemma local_restoreFromBackup m profile :
  emits P (restoreFromBackup E m profile).
Proof. unfold restoreFromBackup. emits_auto. Qed.

Lemma local_pump dest onProgress total data :
  (forall x, emits P (onProgress x)) ->
  forall downloaded, emits P (pump E dest onProgress total downloaded data).
Proof.
  intros Hcb. induction data as [|chunk rest IH]; intros downloaded; simpl.
  - emits_auto.
  - apply emits_bind; [apply Hcb | intros _].
    apply emits_bind; [eauto with emits | intros _]. apply IH.
Qed.

(** A download asks the network for its url, and for nothing else. *)
Lemma requests_downloadWithProgress url dest onProgress :
  P (Io (HttpGet url)) ->
  (forall x, emits P (onProgress x)) ->
  emits P (downloadWithProgress E url dest onProgress).
Proof.
  intros Hurl Hcb. unfold downloadWithProgress.
  apply emits_bind.
  { intros w r w' H. unfold axios_get in H.
    revert H. generalize (http_get E (tick w) url). intros resp. revert w r w'.
    change (emits P (perform E (HttpGet url) ≫= fun fault =>
                     match fault with
                     | Some message => throw message
                     | None => ret tt
                     end ≫= fun _ => mret resp)).
    emits_auto. }
  intros resp.
  apply emits_bind; [eauto with emits | intros _].
  apply emits_bind; [eauto with emits | intros _].
  by apply local_pump.
Qed.

Lemma requests_updateMod (report : UpdateInfo.t) (profile : Profile.t) :
  (forall e, P (Emit e)) ->
  (forall latest file,
      UpdateInfo.latestVersion report = Some latest ->
      pickDownloadFile (Catalog.files latest) = Some file ->
      P (Io (HttpGet (Catalog.url file)))) ->
  emits P (updateMod E report profile).
Proof.
  intros HPe Hurl. unfold updateMod.
  destruct (UpdateInfo.latestVersion report) as [latest|]; [|apply emits_throw].
  apply emits_bind; [by apply emits_emit | intros _].
  apply emits_try_catch.
  - unfold updateMod_try.
    apply emits_bind; [apply local_createBackup | intros _].
    destruct (pickDownloadFile _) as [downloadFile|] eqn:Hpick;
      [|apply emits_throw].
    apply emits_bind.
    { apply requests_downloadWithProgress; [by eapply Hurl|].
      intros x. by apply emits_emit. }
    intros _. apply emits_bind; [apply local_pathExists | intros found].
    apply emits_bind.
    { destruct found; [apply local_remove | apply emits_ret]. }
    intros _. apply emits_bind; [apply local_move | intros _].
    apply emits_bind; [apply emits_Date_now | intros now].
    apply emits_bind; [apply local_updateModRegistry | intros _].
    apply emits_bind; [by apply emits_emit | intros _]. apply emits_ret.
  - intros e. unfold updateMod_catch.
    apply emits_bind; [by apply emits_emit | intros _].
    apply emits_bind; [apply local_restoreFromBackup | intros _].
    apply emits_throw.
Qed.

End Requests.

Section UpdateRequests.

Context (E : Env).

(** X17.  Whatever [updateMod] asks the network for is the url of the file
    it picked in the candidate version: the first file flagged primary,
    else the first file.  A report without a candidate, or a candidate
    without files, causes no request at all. *)
Theorem updateMod_requests_only_picked_file (report : UpdateInfo.t)
    (profile : Profile.t) (w : World) (url : jsstring) :
  Io (HttpGet url) ∈ new_actions w (snd (updateMod E report profile w)) ->
  exists latest file,
    UpdateInfo.latestVersion report = Some latest /\
    pickDownloadFile (Catalog.files latest) = Some file /\
    url = Catalog.url file /\
    (Catalog.primary file = true \/
     (Forall (fun f => Catalog.primary f = false) (Catalog.files latest) /\
      head (Catalog.files latest) = Some file)).
Proof.
  set (P := fun a : Action =>
         forall u, a = Io (HttpGet u) ->
           exists latest file,
             UpdateInfo.latestVersion report = Some latest /\
             pickDownloadFile (Catalog.files latest) = Some file /\
             u = Catalog.url file).
  assert (Hemits : emits P (updateMod E report profile)).
  { apply requests_updateMod.
    - intros [] H u [=]; discriminate.
    - intros e u [=].
    - intros latest file Hl Hf u [= <-]. eauto. }
  destruct (updateMod E report profile w) as [r w'] eqn:Hrun.
  destruct (Hemits _ _ _ Hrun) as (d & Ed & Fd). cbn [snd].
  rewrite (new_actions_app _ _ d Ed). intros Hin.
  rewrite Forall_forall in Fd.
  destruct (Fd _ Hin url eq_refl) as (latest & file & Hl & Hf & ->).
  exists latest, file. split; [done|]. split; [done|]. split; [done|].
  unfold pickDownloadFile in Hf.
  destruct (List.find _ _) as [f|] eqn:Hfind.
  - injection Hf as ->. left. by apply find_some in Hfind as [_ ?].
  - right. split; [|done]. apply Forall_forall. intros f Hf'.
    apply list_elem_of_In in Hf'.
    pose proof (find_none _ _ Hfind f Hf') as Hnp. by destruct (Catalog.primary f).
Qed.

End UpdateRequests.

Section MissingFile.

Context (E : Env).

(** Nothing can be backed up from a path that holds nothing. *)
Lemma createBackup_absent (m : Mod.t) (profile : Profile.t) (w : World) :
  fs w !! Mod.filePath m = None ->
  ¬ Mod.filePath m `prefix_of` backupDir profile ->
  exists e, fst (createBackup E m profile w) = Throw e.
Proof.
  intros Hnone Hpre. unfold createBackup. rewrite bind_run.
  destruct (ensureDir E (backupDir profile) w) as [[[]|e] w1] eqn:Hdir;
    [|by eauto].
  apply ensureDir_Ok in Hdir as (_ & _ & Habsent).
  rewrite bind_run. unfold Date_now at 1. rewrite bind_run.
  match goal with
  | |- context [copy E ?src ?dst w1] =>
      destruct (copy_absent E src dst w1 (Habsent _ Hnone Hpre)) as [e He];
      destruct (copy E src dst w1) as [[[]|e'] w2]
  end; [discriminate|by eauto].
Qed.

(** X18.  When the file of the mod is not on the disk, [updateMod] fails
    without asking the network for anything: the backup copy is the first
    step of the update and it cannot be made. *)
Theorem updateMod_missing_file (report : UpdateInfo.t)
    (latest : Catalog.Version) (profile : Profile.t) (w : World) :
  let m := UpdateInfo.installed report in
  UpdateInfo.latestVersion report = Some latest ->
  fs w !! Mod.filePath m = None ->
  ¬ Mod.filePath m `prefix_of` backupDir profile ->
  (exists e, fst (updateMod E report profile w) = Throw e) /\
  Forall (fun a => forall url, a ≠ Io (HttpGet url))
         (new_actions w (snd (updateMod E report profile w))).
Proof.
  intros m Hl Hnone Hpre.
  set (P := fun a : Action => forall url, a ≠ Io (HttpGet url)).
  assert (HP : forall op, is_http op = false -> P (Io op)).
  { intros op Hop url [= ->]. discriminate. }
  rewrite (updateMod_run E report latest profile w Hl). fold m.
  set (w0 := snd (emit (updateStarted (Mod.name m)) w)).
  destruct (createBackup_absent m profile w0 Hnone Hpre) as [e He].
  destruct (createBackup E m profile w0) as [o w1] eqn:Hbackup.
  cbn [fst] in He. subst o.
  destruct (local_createBackup E P HP _ _ _ _ _ Hbackup) as (d1 & E1 & F1).
  assert (Htry : updateMod_try E m latest profile w0 = (Throw e, w1)).
  { unfold updateMod_try. by rewrite bind_run, Hbackup. }
  rewrite Htry.
  set (wf := snd (emit (updateFailed (Mod.name m) e) w1)).
  destruct (restoreFromBackup E m profile wf) as [ro w2] eqn:Hrestore.
  destruct (local_restoreFromBackup E P HP _ _ _ _ _ Hrestore)
    as (d2 & E2 & F2).
  assert (Htrace : trace w2 = trace w ++ Emit (updateStarted (Mod.name m)) :: d1
                     ++ Emit (updateFailed (Mod.name m) e) :: d2).
  { rewrite E2. subst wf. cbn [snd emit trace]. rewrite E1. subst w0.
    cbn [snd emit trace]. by rewrite <- !app_assoc. }
  split.
  - destruct ro as [[]|e']; eauto.
  - destruct ro as [[]|e']; cbn [snd];
      rewrite (new_actions_app _ _ _ Htrace);
      (constructor; [done|]); apply Forall_app; (split; [done|]);
      by constructor.
Qed.

End MissingFile.

(* ===================================================================== *)
(** * The listing of installed mods *)
(* ===================================================================== *)

Section Listing.

Context (E : Env).

Lemma stat_mtime_Ok (p : Path) (t : Z) (w w' : World) :
  stat_mtime E p w = (Ok t, w') ->
  (exists c, fs w !! p = Some (File c t)) \/ fs w !! p = Some (Dir t).
Proof.
  cbv [stat_mtime mbind M_bind bind io perform get_fs mret M_ret ret throw].
  destruct (io_fault E (tick w)); [discriminate|]. cbn [fs].
  destruct (fs w !! p) as [[c t'|t']|]; intros [=]; subst; eauto.
Qed.

Lemma collectMods_Ok (modsPath : Path) (reg : gmap jsstring ModInfo.t)
    (jarFiles : list jsstring) :
  forall (acc mods : list Mod.t) (w w' : World),
    collectMods E modsPath reg jarFiles acc w = (Ok mods, w') ->
    exists new,
      mods = acc ++ new /\
      List.map Mod.fileName new = List.filter (is_tracked reg) jarFiles /\
      Forall (describes reg (fs w) modsPath) new.
Proof.
  induction jarFiles as [|file rest IH]; intros acc mods w w'; cbn [collectMods].
  - intros [= <- <-]. exists []. by rewrite app_nil_r.
  - cbn [List.filter]. unfold is_tracked at 1.
    destruct (reg !! file) as [modInfo|] eqn:Hentry; [|apply IH].
    destruct (ModInfo.projectId modInfo) as [[|c p]|] eqn:Hproject;
      [apply IH| |apply IH].
    intros Hrun. apply bind_Ok_inv in Hrun as (mtime & w1 & Hstat & Hrun).
    pose proof (same_fs_stat_mtime E _ _ _ _ Hstat) as Hfs.
    apply stat_mtime_Ok in Hstat.
    apply IH in Hrun as (new & -> & Hnames & Hnew).
    eexists (_ :: new). split; [by rewrite <- app_assoc|].
    split; [cbn [List.map Mod.fileName]; by rewrite Hnames|].
    constructor; [|by rewrite <- Hfs].
    split; [done|]. split; [|done].
    exists modInfo. split; [exact Hentry|]. split; [exact Hproject|]. done.
Qed.


End Listing.

(* ===================================================================== *)
(** * What a report promises *)
(* ===================================================================== *)

Section Reports.

Context (E : Env).

(** The report of one mod: an update is offered only against a strictly
    newer candidate, which the report then carries. *)
Lemma checkReport_consistent (profile : Profile.t) (m : Mod.t)
    (i total : nat) (w : World) :
  let r := checkReport E profile m i total w in
  (UpdateInfo.hasUpdate r = true ->
   exists latest current,
     UpdateInfo.latestVersion r = Some latest /\
     Mod.currentVersion m = Some current /\
     compareVersions current (Catalog.version_number latest) < 0 /\
     UpdateInfo.canUpdate r = Some true /\
     UpdateInfo.error r = None) /\
  (UpdateInfo.hasUpdate r = false -> UpdateInfo.latestVersion r = None).
Proof.
  unfold checkReport, checkMod, try_catch.
  rewrite !bind_run. unfold emit. rewrite !bind_run.
  destruct (api_latest E _ _ _ _) as [[[latest|]|e] w2]; cbn; [| done | done].
  destruct (Mod.currentVersion m) as [current|]; cbn; [|done].
  destruct (_ <? 0) eqn:Hlt; cbn; [|done].
  split; [|done]. intros _. exists latest, current.
  apply Z.ltb_lt in Hlt. done.
Qed.

Lemma updateMod_refuses (report : UpdateInfo.t) (profile : Profile.t)
    (w : World) :
  UpdateInfo.latestVersion report = None ->
  updateMod E report profile w = (Throw (js "No update available"), w).
Proof. intros H. unfold updateMod. by rewrite H. Qed.

(** X20.  In what [checkForUpdates] returns, a report says [hasUpdate]
    only when the catalog's candidate compares strictly newer than the
    installed version, and it then carries that candidate; every other
    report carries none, so that [updateMod] refuses it with "No update
    available" and leaves the world as it is. *)
Theorem checkForUpdates_offers_only_newer_versions (profileId : jsstring)
    (reports : list UpdateInfo.t) (w w' : World) :
  checkForUpdates E profileId w = (Ok reports, w') ->
  Forall (fun r =>
            (UpdateInfo.hasUpdate r = true ->
             exists latest current,
               UpdateInfo.latestVersion r = Some latest /\
               Mod.currentVersion (UpdateInfo.installed r) = Some current /\
               compareVersions current (Catalog.version_number latest) < 0) /\
            (UpdateInfo.hasUpdate r = false ->
             forall profile w0,
               updateMod E r profile w0
               = (Throw (js "No update available"), w0)))
         reports.
Proof.
  unfold checkForUpdates.
  destruct (getProfile E profileId) as [profile|]; [|discriminate].
  intros Hrun. apply bind_Ok_inv in Hrun as (mods & w1 & _ & Hrun).
  apply bind_Ok_inv in Hrun as ([] & w2 & _ & Hrun).
  apply bind_Ok_inv in Hrun as (results & w3 & Hloop & Hrun).
  apply bind_Ok_inv in Hrun as ([] & w4 & _ & [= <- _]).
  rewrite (checkLoop_spec E profile) in Hloop. injection Hloop as <- _.
  cbn [app]. apply Forall_forall. intros r Hr.
  apply elem_of_lookup_imap in Hr as (j & m & -> & _).
  match goal with
  | |- context [checkReport E profile m ?i ?n ?w0] =>
      destruct (checkReport_consistent profile m i n w0) as [Hyes Hno];
      pose proof (proj2 (checkMod_returns E profile m i n w0)) as Hm
  end.
  split.
  - intros H. destruct (Hyes H) as (latest & current & ? & ? & ? & _).
    exists latest, current. by rewrite Hm.
  - intros H profile' w0. by apply updateMod_refuses, Hno.
Qed.

(** A batch of reports without candidates fails entry by entry and
    leaves the disk alone. *)
Lemma batchLoop_without_candidates (profile : Profile.t) (total : nat)
    (mods : list UpdateInfo.t) :
  Forall (fun r => UpdateInfo.latestVersion r = None) mods ->
  forall (i : nat) (acc : list BatchResult) (w : World),
    fst (batchLoop E total i mods profile acc w)
    = Ok (acc ++ List.map
            (fun r => BatchFailure (Mod.name (UpdateInfo.installed r))
                        (js "No update available")) mods)
    /\ fs (snd (batchLoop E total i mods profile acc w)) = fs w.
Proof.
  induction 1 as [|r rest Hr _ IH]; intros i acc w.
  - cbn. by rewrite app_nil_r.
  - rewrite batchLoop_step. unfold batchEntry.
    rewrite (updateMod_refuses r profile _ Hr). cbn [fst snd].
    destruct (IH (S i) (acc ++ [BatchFailure (Mod.name (UpdateInfo.installed r))
                                  (js "No update available")])
                 (snd (emit (batchUpdateProgress (i + 1) total
                               (Mod.name (UpdateInfo.installed r))) w)))
      as [Hres Hfs].
    rewrite Hres, Hfs. split; [|done].
    cbn [List.map]. by rewrite <- app_assoc.
Qed.

(** X21.  Given only reports without a candidate version, a batch update
    answers one failure entry "No update available" per report, in order,
    and changes nothing on the disk. *)
Theorem updateMultipleMods_without_candidates (mods : list UpdateInfo.t)
    (profile : Profile.t) (w : World) :
  Forall (fun r => UpdateInfo.latestVersion r = None) mods ->
  fst (updateMultipleMods E mods profile w)
  = Ok (List.map (fun r => BatchFailure (Mod.name (UpdateInfo.installed r))
                             (js "No update available")) mods)
  /\ fs (snd (updateMultipleMods E mods profile w)) = fs w.
Proof.
  intros Hmods.
  pose (w0 := {| fs := fs w; trace := trace w; tick := tick w;
                 isUpdating := true |}).
  destruct (batchLoop_without_candidates profile (length mods) mods Hmods
              0 [] w0) as [Hres Hfs].
  destruct (batchLoop E (length mods) 0 mods profile [] w0)
    as [o wl] eqn:Hloop.
  cbn [fst snd app fs] in Hres, Hfs. subst o.
  assert (Hrun : exists w', updateMultipleMods E mods profile w
                 = (Ok (List.map
                          (fun r => BatchFailure
                                      (Mod.name (UpdateInfo.installed r))
                                      (js "No update available")) mods), w')
                 /\ fs w' = fs wl).
  { unfold updateMultipleMods. rewrite bind_run. unfold set_isUpdating at 1.
    change (Build_World (fs w) (trace w) (tick w) true) with w0.
    rewrite bind_run, Hloop. eexists. split; reflexivity. }
  destruct Hrun as (w' & -> & Hfs'). cbn [fst snd]. by rewrite Hfs'.
Qed.

End Reports.

(* ===================================================================== *)
(** * The main process *)
(* ===================================================================== *)

Section Main.

Context (E : Env).

(** X22.  Among the versions the catalog answers, the wrapper returns the
    first one that lists both the game version and the loader of the
    profile; when none does, it returns the first version all the same,
    compatible or not; it returns nothing only for an empty answer. *)
Theorem selectVersion_first_match_or_first (versions : list Catalog.Version)
    (gameVersion loader : jsstring) :
  match selectVersion versions gameVersion loader with
  | Some v =>
      (exists before after,
          versions = before ++ v :: after /\
          gameVersion ∈ Catalog.game_versions v /\
          loader ∈ Catalog.loaders v /\
          Forall (fun u => matchesProfile gameVersion loader u = false) before)
      \/ (head versions = Some v /\
          Forall (fun u => matchesProfile gameVersion loader u = false)
                 versions)
  | None => versions = []
  end.
Proof.
  unfold selectVersion.
  induction versions as [|u rest IH]; [done|]. cbn [List.find head].
  destruct (matchesProfile gameVersion loader u) eqn:Hu.
  - left. exists [], rest. split; [done|].
    unfold matchesProfile, includes in Hu.
    apply andb_true_iff in Hu as [Hg Hl].
    apply bool_decide_eq_true in Hg, Hl. done.
  - destruct (List.find _ rest) as [v|] eqn:Hfind.
    + left. destruct IH as [(before & after & -> & Hg & Hl & Hb) | [_ Hall]].
      * exists (u :: before), after.
        split; [done|]. split; [done|]. split; [done|]. by constructor.
      * apply find_some in Hfind as [Hin Hv].
        apply list_elem_of_In in Hin. rewrite Forall_forall in Hall.
        rewrite (Hall v Hin) in Hv. discriminate.
    + right. split; [done|]. constructor; [done|].
      apply Forall_forall. intros x Hx. apply list_elem_of_In in Hx.
      apply (find_none _ _ Hfind x Hx).
Qed.

(** X23.  The handler of [check-for-updates] never rejects, and its
    reply tells what happened.  It answers a failure in three cases only:
    no update manager ("Update Manager not initialized"), a profile the
    manager does not know (the failure of reading [modsPath] off [null]),
    or a listing of the installed mods that failed, whose message it
    passes on.  Otherwise it answers success with one report per listed
    mod, however many catalog lookups failed. *)
Theorem ipc_check_for_updates_reply (initialized : bool)
    (profileId : jsstring) (w : World) :
  match fst (ipc_check_for_updates E initialized profileId w) with
  | Ok (inl reports) =>
      initialized = true /\
      exists profile mods w1,
        getProfile E profileId = Some profile /\
        getInstalledMods E profile w = (Ok mods, w1) /\
        List.map UpdateInfo.installed reports = mods
  | Ok (inr error) =>
      (initialized = false /\ error = js "Update Manager not initialized") \/
      (initialized = true /\ getProfile E profileId = None /\
       error = js "Cannot read properties of null (reading 'modsPath')") \/
      (initialized = true /\
       exists profile w1,
         getProfile E profileId = Some profile /\
         getInstalledMods E profile w = (Throw error, w1))
  | Throw _ => False
  end.
Proof.
  unfold ipc_check_for_updates, try_catch.
  destruct initialized; cbn [negb]; [|by left].
  rewrite bind_run. unfold checkForUpdates.
  destruct (getProfile E profileId) as [profile|]; [|right; by left].
  rewrite bind_run.
  destruct (getInstalledMods E profile w) as [[mods|e] w1] eqn:Hlist.
  2:{ right. right. split; [done|]. by exists profile, w1. }
  rewrite bind_run. unfold emit at 1.
  rewrite bind_run, (checkLoop_spec E profile). cbn [app fst].
  split; [done|]. exists profile, mods, w1. split; [done|]. split; [done|].
  apply map_installed_imap. intros i m. apply (checkMod_returns E profile).
Qed.

End Main.

(* ===================================================================== *)
(** * What a successful update leaves on the disk *)
(* ===================================================================== *)

Section Install.

Context (E : Env).

(** The root of a moved subtree arrives at the destination. *)
Lemma rerooted_root (src dst : Path) (f : gmap Path Node) (n : Node) :
  f !! src = Some n -> rerooted src dst f !! dst = Some n.
Proof.
  intros Hsrc. unfold rerooted. apply elem_of_list_to_map_1'.
  - intros y Hy. apply list_elem_of_omap in Hy as ([q n'] & Hq & Hsome).
    case_bool_decide as Hpre; [|discriminate]. injection Hsome as Hdst ->.
    apply elem_of_map_to_list in Hq.
    assert (drop (length src) q = []) as Hdrop.
    { apply (f_equal length) in Hdst. rewrite length_app in Hdst.
      apply length_zero_iff_nil. lia. }
    destruct Hpre as [k ->]. rewrite drop_app_length in Hdrop. subst k.
    rewrite app_nil_r in Hq.
    pose proof (eq_trans (eq_sym Hsrc) Hq) as Heq. by injection Heq.
  - apply list_elem_of_omap. exists (src, n).
    split; [by apply elem_of_map_to_list|].
    rewrite bool_decide_eq_true_2 by done.
    by rewrite drop_all, app_nil_r.
Qed.

Lemma move_Ok (src dst : Path) (w w' : World) :
  move E src dst w = (Ok tt, w') ->
  exists n, fs w !! src = Some n /\ fs w' !! dst = Some n.
Proof.
  cbv [move mbind M_bind bind io perform get_fs put_fs Date_now
       mret M_ret ret throw].
  destruct (io_fault E (tick w)); [discriminate|]. cbn [fs tick].
  destruct (fs w !! src) as [n|] eqn:Hsrc; [|discriminate].
  intros H. repeat case_match; simplify_eq. cbn [fs].
  exists n. split; [done|].
  apply lookup_union_Some_l. by apply rerooted_root.
Qed.

Lemma remove_Ok (p : Path) (w w' : World) :
  remove E p w = (Ok tt, w') ->
  forall q n, fs w' !! q = Some n -> fs w !! q = Some n.
Proof.
  cbv [remove mbind M_bind bind io perform get_fs put_fs mret M_ret ret throw].
  destruct (io_fault E (tick w)); [discriminate|]. cbn [fs].
  intros [= <-] q n. cbn [fs]. unfold without_subtree.
  intros H. by apply map_lookup_filter_Some in H as [? _].
Qed.

Lemma copy_Ok_tick (src dst : Path) (w w' : World) :
  copy E src dst w = (Ok tt, w') -> tick w' = S (tick w).
Proof.
  cbv [copy mbind M_bind bind io perform get_fs put_fs Date_now
       mret M_ret ret throw].
  destruct (io_fault E (tick w)); [discriminate|]. cbn [fs tick].
  intros H. repeat case_match; by simplify_eq.
Qed.

Lemma createBackup_Ok_tick (m : Mod.t) (profile : Profile.t) (p : Path)
    (w w' : World) :
  createBackup E m profile w = (Ok p, w') -> tick w' = S (S (tick w)).
Proof.
  unfold createBackup. intros Hrun.
  apply bind_Ok_inv in Hrun as ([] & w1 & Hdir & Hrun).
  apply ensureDir_Ok in Hdir as (Htick & _).
  apply bind_Ok_inv in Hrun as (now & w2 & [= _ <-] & Hrun).
  apply bind_Ok_inv in Hrun as ([] & w3 & Hcopy & [= _ <-]).
  apply copy_Ok_tick in Hcopy. by rewrite Hcopy, Htick.
Qed.

(** X24.  An update that returns has put the bytes it downloaded, in
    order, at the file name of the picked file in the folder of the old
    mod file (unless that path is the registry file itself, which the
    commit then overwrites).  The download is the third external call of
    the update. *)
Theorem updateMod_installs_download (report : UpdateInfo.t)
    (latest : Catalog.Version) (profile : Profile.t) (w w' : World)
    (result : UpdateResult.t) :
  let m := UpdateInfo.installed report in
  UpdateInfo.latestVersion report = Some latest ->
  updateMod E report profile w = (Ok result, w') ->
  exists file,
    pickDownloadFile (Catalog.files latest) = Some file /\
    let newPath := path_dirname (Mod.filePath m) ++ [Catalog.filename file] in
    (newPath ≠ registryPath E (Profile.id profile) ->
     exists t,
       fs w' !! newPath
       = Some (File (Raw (concat (chunks (http_get E (S (S (tick w)))
                                            (Catalog.url file))))) t)).
Proof.
  intros m Hl. rewrite (updateMod_run E report latest profile w Hl). fold m.
  destruct (updateMod_try E m latest profile _) as [[res|e] w1] eqn:Htry;
    [|destruct (restoreFromBackup _ _ _ _) as [[[]|?] ?]; discriminate].
  intros [= -> ->]. unfold updateMod_try in Htry.
  apply bind_Ok_inv in Htry as (backupPath & wa & Hbackup & Htry).
  apply createBackup_Ok_tick in Hbackup. cbn [snd emit tick] in Hbackup.
  destruct (pickDownloadFile (Catalog.files latest)) as [file|];
    [|discriminate].
  exists file. split; [done|]. intros newPath Hne.
  apply bind_Ok_inv in Htry as ([] & wb & Hdownload & Htry).
  unfold downloadWithProgress in Hdownload.
  apply bind_Ok_inv in Hdownload as (response & w1 & Hget & Hdownload).
  apply axios_get_Ok in Hget as [-> _]. rewrite Hbackup in Hdownload.
  apply bind_Ok_inv in Hdownload as ([] & w2 & _ & Hdownload).
  apply bind_Ok_inv in Hdownload as ([] & w3 & Hopen & Hdownload).
  apply openWrite_Ok in Hopen as (t1 & Hopen).
  apply (pump_content E _ _ _ _ (fun x => same_fs_emit _) _ _ _ _ _ Hopen)
    in Hdownload as (t0 & Htemp).
  cbn [app] in Htemp.
  apply bind_Ok_inv in Htry as (found & wc & Hcheck & Htry).
  rewrite pathExists_run in Hcheck. injection Hcheck as _ <-.
  apply bind_Ok_inv in Htry as ([] & wd & Hremove & Htry).
  apply bind_Ok_inv in Htry as ([] & we & Hmove & Htry).
  apply move_Ok in Hmove as (n & Hsrc & Hdst).
  assert (Hn : n = File (Raw (concat (chunks (http_get E (S (S (tick w)))
                                                (Catalog.url file))))) t0).
  { destruct found.
    - apply (remove_Ok _ _ _ Hremove) in Hsrc. cbn [fs after_call] in Hsrc.
      congruence.
    - injection Hremove as <-. cbn [fs after_call] in Hsrc. congruence. }
  subst n.
  apply bind_Ok_inv in Htry as (now & wf & [= _ <-] & Htry).
  apply bind_Ok_inv in Htry as ([] & wg & Hcommit & Htry).
  apply updateModRegistry_Ok in Hcommit as (registry0 & t & Hfs).
  injection Htry as _ <-. cbn [fs]. rewrite Hfs.
  rewrite lookup_insert_ne by done. eauto.
Qed.

End Install.

(* ===================================================================== *)
(** * From the update page to the manager *)
(* ===================================================================== *)

Section Page.

Context (E : Env).

Lemma updateAllMods_selects_updates (modList : list UpdateInfo.t) :
  selectedModData modList (updateAllMods_selection modList)
  = List.filter UpdateInfo.hasUpdate modList.
Proof.
  unfold selectedModData. apply filter_ext_in. intros r Hr.
  destruct (UpdateInfo.hasUpdate r) eqn:Hu; [|apply andb_false_r].
  rewrite andb_true_r. apply bool_decide_eq_true_2.
  unfold updateAllMods_selection. apply elem_of_list_to_set.
  apply list_elem_of_fmap. exists r. split; [done|].
  apply list_elem_of_In, filter_In. done.
Qed.


End Page.

(* ===================================================================== *)
(** * Backup, then restore *)
(* ===================================================================== *)

Section RoundTrip.

Context (E : Env).

(** What a folder lists: the last component of every path just below it. *)
Lemma entries_child (p : Path) (name : jsstring) (f : gmap Path Node)
    (n : Node) :
  f !! (p ++ [name]) = Some n -> name ∈ entries p f.
Proof.
  intros Hn. unfold entries. apply list_elem_of_omap.
  exists (p ++ [name], n). split; [by apply elem_of_map_to_list|].
  rewrite last_snoc. unfold path_dirname. rewrite removelast_last.
  by rewrite bool_decide_eq_true_2.
Qed.

(** X26.  Round trip of a backup.  After [createBackup] has returned for
    a mod file holding [c], a later restore that finds this backup still
    in place, lists the backup folder, and sees no backup of the mod with
    a greater name, puts [c] back at the path of the mod when it returns,
    whatever happened to the mod file in between. *)
Theorem backup_then_restore (m : Mod.t) (profile : Profile.t) (c : Content)
    (t : Z) (backupPath : Path) (w w1 w2 w' : World) :
  fs w !! Mod.filePath m = Some (File c t) ->
  createBackup E m profile w = (Ok backupPath, w1) ->
  fs w2 !! backupPath = fs w1 !! backupPath ->
  is_dir (fs w2) (backupDir profile) = true ->
  (forall n, n ∈ backupsOf m profile (fs w2) ->
             str_lt (default [] (last backupPath)) n = false) ->
  io_fault E (tick w2) = None ->
  io_fault E (S (tick w2)) = None ->
  restoreFromBackup E m profile w2 = (Ok tt, w') ->
  exists t', fs w' !! Mod.filePath m = Some (File c t').
Proof.
  intros Hfile Hbackup Hkept Hdir Hgreatest Hcheck Hlist Hrestore.
  (* the backup *)
  unfold createBackup in Hbackup.
  apply bind_Ok_inv in Hbackup as ([] & wa & Hensure & Hbackup).
  apply ensureDir_Ok in Hensure as (_ & Hkeep & _).
  apply bind_Ok_inv in Hbackup as (now & wb & [= _ <-] & Hbackup).
  cbv zeta in Hbackup.
  apply bind_Ok_inv in Hbackup as ([] & wc & Hcopy & [= <- <-]).
  apply (copy_file_Ok E _ _ c t) in Hcopy as [Hdst _]; [|by apply Hkeep].
  set (name := Mod.fileName m ++ js ".backup." ++ number_to_string (of_Z now))
    in *.
  unfold path_join in *.
  pose proof (eq_trans Hkept Hdst) as Hkept'.
  assert (Hgreatest' : forall n, n ∈ backupsOf m profile (fs w2) ->
                                 str_lt name n = false).
  { intros n Hn. specialize (Hgreatest n Hn).
    rewrite last_snoc in Hgreatest. exact Hgreatest. }
  clear Hkept Hgreatest.
  (* it is listed among the backups of the mod *)
  assert (Hname : name ∈ backupsOf m profile (fs w2)).
  { unfold backupsOf. apply list_elem_of_In, filter_In. split.
    - apply list_elem_of_In. exact (entries_child _ _ _ _ Hkept').
    - unfold startsWith. apply bool_decide_eq_true_2.
      exists (number_to_string (of_Z now)). subst name.
      by rewrite <- app_assoc. }
  (* the restore picks it *)
  revert Hrestore. unfold restoreFromBackup.
  rewrite bind_run, pathExists_run, Hcheck.
  assert (Hexists : is_Some (fs w2 !! backupDir profile)).
  { unfold is_dir in Hdir. destruct (backupDir profile) eqn:Hb.
    - unfold backupDir, path_join in Hb. by destruct (Profile.path profile).
    - by destruct (fs w2 !! _) as [[]|]. }
  rewrite bool_decide_eq_true_2 by done. cbn [negb].
  rewrite bind_run, readdir_run. cbn [tick fs after_call].
  rewrite Hlist, Hdir. fold (backupsOf m profile (fs w2)).
  destruct (reverse (sort_strings (backupsOf m profile (fs w2))))
    as [|latest rest] eqn:Hsort.
  { apply reverse_sort_nil in Hsort. rewrite Hsort in Hname.
    by apply elem_of_nil in Hname. }
  destruct (head_reverse_sort _ _ _ Hsort) as [Hin Hmax].
  assert (latest = name) as ->.
  { apply str_lt_antisym; [by apply Hmax | by apply Hgreatest']. }
  intros Hcopy.
  apply (copy_file_Ok E _ _ c (date_now E (S (tick wa)))) in Hcopy
    as [Hrestored _]; [eauto | exact Hkept'].
Qed.

End RoundTrip.

(* ===================================================================== *)
(** * The properties on the concrete installation *)
(* ===================================================================== *)

Section Runs.

Import Example Cases.

(** X5, on the installation without a registry file. *)
Lemma registry_created_when_missing_example :
  let E := env healthy in
  let run := updateModRegistry E (js "p1") (js "sodium-0.5.0.jar") update
               unregistered in
  fst run = Ok tt /\
  exists t,
    fs (snd run) !! registryPath E (js "p1")
    = Some (File (RegistryJson {[ ModInfo.fileName update := update ]}) t).
Proof.
  intros E run.
  assert (Hnone : fs unregistered !! registryPath E (js "p1") = None)
    by (vm_compute; reflexivity).
  assert (Hrun : fst run = Ok tt) by (vm_compute; reflexivity).
  split; [exact Hrun|].
  exact (proj2 (registry_created_when_missing E (js "p1")
                  (js "sodium-0.5.0.jar") update unregistered (snd run) Hnone)
               (run_eq run _ Hrun)).
Defined.

(** X6, on the installation: the entry of the mod is renamed, the entry
    of another mod stays. *)
Lemma updateModRegistry_keeps_other_entries_example :
  let E := env healthy in
  let run := updateModRegistry E (js "p1") (js "sodium-0.5.0.jar") update
               world in
  fst run = Ok tt /\
  exists registry' t,
    fs (snd run) !! registryPath E (js "p1")
    = Some (File (RegistryJson registry') t) /\
    registry' !! js "sodium-0.5.3.jar" = Some update /\
    registry' !! js "lithium-0.11.2.jar" = registry !! js "lithium-0.11.2.jar".
Proof.
  intros E run.
  assert (Hfile : fs world !! registryPath E (js "p1")
                  = Some (File (RegistryJson registry) 1))
    by (vm_compute; reflexivity).
  assert (Hrun : fst run = Ok tt) by (vm_compute; reflexivity).
  split; [exact Hrun|].
  destruct (updateModRegistry_keeps_other_entries E (js "p1")
              (js "sodium-0.5.0.jar") update registry 1 world (snd run)
              Hfile eq_refl (run_eq run _ Hrun))
    as (registry' & t & Hnew & Hentry & _ & Hrest).
  exists registry', t. split; [exact Hnew|]. split; [exact Hentry|].
  apply Hrest; intros H; vm_compute in H; discriminate H.
Defined.

(** X7, when the check for the registry file errs: the three entries of
    the registry are replaced by the new one. *)
Lemma updateModRegistry_drops_entries_on_failed_check_example :
  let E := env check_fails in
  let run := updateModRegistry E (js "p1") (js "sodium-0.5.0.jar") update
               world in
  fst run = Ok tt /\
  exists t,
    fs (snd run) !! registryPath E (js "p1")
    = Some (File (RegistryJson {[ ModInfo.fileName update := update ]}) t).
Proof.
  intros E run.
  assert (Hrun : fst run = Ok tt) by (vm_compute; reflexivity).
  split; [exact Hrun|].
  exact (updateModRegistry_drops_entries_on_failed_check E (js "p1")
           (js "sodium-0.5.0.jar") update
           (js "EPERM: operation not permitted") world (snd run)
           eq_refl (run_eq run _ Hrun)).
Defined.



(** X10, on the installation with its three tracked mods. *)
Lemma checkForUpdates_event_sequence_example :
  let E := env catalog_fails_once in
  let listing := getInstalledMods E profile world in
  let mods := match fst listing with Ok l => l | Throw _ => [] end in
  length mods = 3%nat /\
  exists reports,
    fst (checkForUpdates E (js "p1") world) = Ok reports /\
    events_of (new_actions world (snd (checkForUpdates E (js "p1") world)))
    = updateCheckStarted (js "p1") (length mods)
      :: imap (fun i m => checkingMod (Mod.name m) (i + 1) (length mods)) mods
      ++ [updateCheckCompleted (js "p1") reports
            (length (List.filter UpdateInfo.hasUpdate reports))].
Proof.
  intros E listing mods.
  assert (Hlist : fst listing = Ok mods) by (vm_compute; reflexivity).
  split; [vm_compute; reflexivity|].
  exact (checkForUpdates_event_sequence E (js "p1") profile mods world
           (snd listing) eq_refl (run_eq listing (Ok mods) Hlist)).
Defined.

(** X12, on the installation: the two chunks of the response. *)
Lemma downloadWithProgress_stores_stream_example :
  let E := env healthy in
  let run := downloadWithProgress E (Catalog.url jar) temp_jar
               (fun progress => emit (downloading (js "Sodium") progress))
               world in
  fst run = Ok tt /\
  exists t, fs (snd run) !! temp_jar = Some (File (Raw [9; 9; 9; 9]%N) t).
Proof.
  intros E run.
  assert (Hrun : fst run = Ok tt) by (vm_compute; reflexivity).
  split; [exact Hrun|].
  exact (downloadWithProgress_stores_stream E (Catalog.url jar) temp_jar
           (fun progress => emit (downloading (js "Sodium") progress))
           world (snd run)
           (fun x => same_fs_emit (downloading (js "Sodium") x))
           (run_eq run _ Hrun)).
Defined.

(** X13, from a server that sends no [content-length]: two chunks, two
    reports of progress 0. *)
Lemma downloadWithProgress_without_content_length_example :
  let run := downloadWithProgress headless (Catalog.url jar) temp_jar
               (fun progress => emit (downloading (js "Sodium") progress))
               world in
  fst run = Ok tt /\
  events_of (new_actions world (snd run))
  = [downloading (js "Sodium") pos_zero; downloading (js "Sodium") pos_zero].
Proof.
  intros run.
  assert (Hrun : fst run = Ok tt) by (vm_compute; reflexivity).
  split; [exact Hrun|].
  destruct (downloadWithProgress_without_content_length headless
              (Catalog.url jar) (js "Sodium") temp_jar world eq_refl)
    as (k & _ & Hevents & Hall).
  rewrite (Hall Hrun) in Hevents. exact Hevents.
Defined.

(** X14, on the installation. *)
Lemma createBackup_copies_mod_example :
  let E := env healthy in
  let run := createBackup E installed profile world in
  let backup := backups ++ [js "sodium-0.5.0.jar.backup.1730570000001"] in
  fst run = Ok backup /\
  (exists t, fs (snd run) !! backup = Some (File (Raw [1; 2; 3]%N) t)) /\
  (exists t, fs (snd run) !! Mod.filePath installed
             = Some (File (Raw [1; 2; 3]%N) t)).
Proof.
  intros E run backup.
  assert (Hfile : fs world !! Mod.filePath installed
                  = Some (File (Raw [1; 2; 3]%N) 5))
    by (vm_compute; reflexivity).
  assert (Hrun : fst run = Ok backup) by (vm_compute; reflexivity).
  split; [exact Hrun|].
  destruct (createBackup_copies_mod E installed profile (Raw [1; 2; 3]%N) 5
              backup world (snd run) Hfile (run_eq run _ Hrun))
    as (_ & Hbackup & Hmod & _).
  split; [exact Hbackup | exact Hmod].
Defined.

(** X15, on the installation, which has no backup folder. *)
Lemma restoreFromBackup_nothing_to_restore_example :
  let run := restoreFromBackup (env healthy) installed profile world in
  fst run = Ok tt /\ fs (snd run) = fs world.
Proof.
  intros run.
  assert (Habsent : fs world !! backupDir profile = None)
    by (vm_compute; reflexivity).
  exact (restoreFromBackup_nothing_to_restore (env healthy) installed profile
           world (or_intror (or_introl Habsent))).
Defined.

(** X16, on the installation with two backups of the mod. *)
Lemma restoreFromBackup_uses_greatest_backup_example :
  let E := env healthy in
  exists latest,
    latest ∈ backupsOf installed profile (fs backed_up) /\
    (forall n, n ∈ backupsOf installed profile (fs backed_up) ->
               str_lt latest n = false) /\
    restoreFromBackup E installed profile backed_up
    = copy E (backupDir profile ++ [latest]) (Mod.filePath installed)
        (after_call (ReadDir (backupDir profile))
           (after_call (PathExists (backupDir profile)) backed_up)).
Proof.
  intros E.
  assert (Hdir : is_dir (fs backed_up) (backupDir profile) = true)
    by (vm_compute; reflexivity).
  assert (Hlen : length (backupsOf installed profile (fs backed_up)) = 2%nat)
    by (vm_compute; reflexivity).
  assert (Hsome : backupsOf installed profile (fs backed_up) ≠ []).
  { intros Hnil. rewrite Hnil in Hlen. discriminate Hlen. }
  destruct (restoreFromBackup_uses_greatest_backup E installed profile
              backed_up eq_refl eq_refl Hdir Hsome)
    as (latest & Hin & Hmax & Hrun & _).
  exists latest. split; [exact Hin|]. split; [exact Hmax | exact Hrun].
Defined.

(** X17, on the installation: the candidate lists a sources archive first
    and the primary jar second; the jar is what is requested. *)
Lemma updateMod_requests_only_picked_file_example :
  exists latest file,
    UpdateInfo.latestVersion report = Some latest /\
    pickDownloadFile (Catalog.files latest) = Some file /\
    js "https://cdn/sodium-0.5.3.jar" = Catalog.url file /\
    (Catalog.primary file = true \/
     (Forall (fun f => Catalog.primary f = false) (Catalog.files latest) /\
      head (Catalog.files latest) = Some file)).
Proof.
  assert (Hcall : new_actions world
                    (snd (updateMod (env healthy) report profile world)) !! 3%nat
                  = Some (Io (HttpGet (js "https://cdn/sodium-0.5.3.jar"))))
    by (vm_compute; reflexivity).
  exact (updateMod_requests_only_picked_file (env healthy) report profile
           world (js "https://cdn/sodium-0.5.3.jar")
           (list_elem_of_lookup_2 _ _ _ Hcall)).
Defined.

(** X18, for a mod whose file is not in the mods folder. *)
Lemma updateMod_missing_file_example :
  let run := updateMod (env healthy) ghost profile world in
  (exists e, fst run = Throw e) /\
  Forall (fun a => forall url, a ≠ Io (HttpGet url))
         (new_actions world (snd run)).
Proof.
  intros run.
  assert (Hnone : fs world !! Mod.filePath (UpdateInfo.installed ghost) = None)
    by (vm_compute; reflexivity).
  assert (Hpre : ¬ Mod.filePath (UpdateInfo.installed ghost)
                   `prefix_of` backupDir profile).
  { intros [k Hk]. vm_compute in Hk. discriminate Hk. }
  exact (updateMod_missing_file (env healthy) ghost latest profile world
           eq_refl Hnone Hpre).
Defined.


(** X20, on the installation. *)
Lemma checkForUpdates_offers_only_newer_versions_example :
  let E := env healthy in
  let run := checkForUpdates E (js "p1") world in
  let reports := match fst run with Ok l => l | Throw _ => [] end in
  length reports = 3%nat /\
  Forall (fun r =>
            (UpdateInfo.hasUpdate r = true ->
             exists latest current,
               UpdateInfo.latestVersion r = Some latest /\
               Mod.currentVersion (UpdateInfo.installed r) = Some current /\
               compareVersions current (Catalog.version_number latest) < 0) /\
            (UpdateInfo.hasUpdate r = false ->
             forall profile w0,
               updateMod E r profile w0
               = (Throw (js "No update available"), w0)))
         reports.
Proof.
  intros E run reports.
  assert (Hrun : fst run = Ok reports) by (vm_compute; reflexivity).
  split; [vm_compute; reflexivity|].
  exact (checkForUpdates_offers_only_newer_versions E (js "p1") reports world
           (snd run) (run_eq run (Ok reports) Hrun)).
Defined.

(** X21, for two reports without a candidate. *)
Lemma updateMultipleMods_without_candidates_example :
  let run := updateMultipleMods (env healthy) [up_to_date; up_to_date]
               profile world in
  fst run = Ok [BatchFailure (js "Sodium") (js "No update available");
                BatchFailure (js "Sodium") (js "No update available")]
  /\ fs (snd run) = fs world.
Proof.
  intros run.
  assert (Hmods : Forall (fun r => UpdateInfo.latestVersion r = None)
                         [up_to_date; up_to_date])
    by (repeat constructor).
  exact (updateMultipleMods_without_candidates (env healthy)
           [up_to_date; up_to_date] profile world Hmods).
Defined.

(** X24, on the installation: the new jar holds the four bytes of the
    response. *)
Lemma updateMod_installs_download_example :
  let run := updateMod (env healthy) report profile world in
  exists t,
    fs (snd run) !! [js "mods"; js "sodium-0.5.3.jar"]
    = Some (File (Raw [9; 9; 9; 9]%N) t).
Proof.
  intros run.
  assert (Hrun : fst run
                 = Ok {| UpdateResult.oldFile := js "sodium-0.5.0.jar";
                         UpdateResult.newFile := js "sodium-0.5.3.jar";
                         UpdateResult.newVersion := js "0.5.3" |})
    by (vm_compute; reflexivity).
  destruct (updateMod_installs_download (env healthy) report latest profile
              world (snd run) _ eq_refl (run_eq run _ Hrun))
    as (file & Hpick & Hfile).
  change (Some jar = Some file) in Hpick. injection Hpick as <-.
  apply Hfile. intros H. vm_compute in H. discriminate H.
Defined.


(** X26, on the installation: the mod file is deleted after the backup,
    and the restore brings its three bytes back. *)
Lemma backup_then_restore_example :
  let E := env healthy in
  let backup := createBackup E installed profile world in
  let damaged :=
    {| fs := delete (Mod.filePath installed) (fs (snd backup));
       trace := trace (snd backup); tick := tick (snd backup);
       isUpdating := false |} in
  let restore := restoreFromBackup E installed profile damaged in
  fs damaged !! Mod.filePath installed = None /\
  fst restore = Ok tt /\
  exists t,
    fs (snd restore) !! Mod.filePath installed
    = Some (File (Raw [1; 2; 3]%N) t).
Proof.
  intros E backup damaged restore.
  pose (path := backups ++ [js "sodium-0.5.0.jar.backup.1730570000001"]).
  assert (Hfile : fs world !! Mod.filePath installed
                  = Some (File (Raw [1; 2; 3]%N) 5))
    by (vm_compute; reflexivity).
  assert (Hbackup : fst backup = Ok path) by (vm_compute; reflexivity).
  assert (Hkept : fs damaged !! path = fs (snd backup) !! path).
  { apply lookup_delete_ne. intros H. vm_compute in H. discriminate H. }
  assert (Hdir : is_dir (fs damaged) (backupDir profile) = true)
    by (vm_compute; reflexivity).
  assert (Hnames : backupsOf installed profile (fs damaged)
                   = [js "sodium-0.5.0.jar.backup.1730570000001"])
    by (vm_compute; reflexivity).
  assert (Hgreatest : forall n, n ∈ backupsOf installed profile (fs damaged) ->
                                str_lt (default [] (last path)) n = false).
  { intros n Hn. rewrite Hnames in Hn.
    apply list_elem_of_singleton in Hn. rewrite Hn.
    vm_compute. reflexivity. }
  assert (Hrestore : fst restore = Ok tt) by (vm_compute; reflexivity).
  split; [apply lookup_delete_eq|]. split; [exact Hrestore|].
  exact (backup_then_restore E installed profile (Raw [1; 2; 3]%N) 5 path
           world (snd backup) damaged (snd restore) Hfile
           (run_eq backup _ Hbackup) Hkept Hdir Hgreatest eq_refl eq_refl
           (run_eq restore _ Hrestore)).
Defined.

End Runs.
